(** * Maze generation engine of [maze_game.py]: a shallow embedding

    The wall model, the randomized Prim builder, the breadth-first
    connectivity check, the repair walk and the movement predicate of
    [src/maze_game.py], followed by the properties proved about them.

    Conventions.
    - Python integers are [Z]; a [Cell] is the dataclass with fields [x], [y].
    - Python sets are [gset]s.  [list(s)] of a set is [elements s].  CPython
      lists a set in the order of its hash table, which depends on the
      history of the table and is in general another order than that of
      [elements]; the index drawn from the list is arbitrary here, so every
      run of the code is the run of the embedding on some sequence of draws,
      and what is proved for every random source holds for every listing
      order.  Nothing is said about which maze a given seed produces.
    - The module-level random generator is a state [G] with a transition
      [next : G -> nat * G] yielding one raw draw; [random.choice seq] is the
      element at index (draw mod len(seq)).
    - A [while] loop is a function with a fuel argument; [None] means that the
      run did not return (fuel exhausted, or a Python exception). *)

From Stdlib Require Import ZArith List Lia Bool.
From stdpp Require Import base option list list_numbers gmap sets fin_sets relations.

Local Open Scope Z_scope.

(** ** Grid model *)

(** [class Direction(Enum)]; iteration of the enum follows declaration order. *)
Inductive Direction : Set := UP | RIGHT | DOWN | LEFT.

Definition value (d : Direction) : Z * Z :=
  match d with
  | UP => (0, -1)
  | RIGHT => (1, 0)
  | DOWN => (0, 1)
  | LEFT => (-1, 0)
  end.

Definition directions : list Direction := [UP; RIGHT; DOWN; LEFT].

(** [@dataclass class Cell]: equality and hash are those of the pair (x, y). *)
Record Cell : Set := mkCell { x : Z; y : Z }.

#[export] Instance Cell_eq_dec : EqDecision Cell.
Proof. solve_decision. Defined.

#[export] Instance Cell_countable : Countable Cell.
Proof.
  refine (inj_countable' (fun c => (x c, y c)) (fun p => mkCell p.1 p.2) _).
  intros [cx cy]. reflexivity.
Defined.

Definition get_neighbor (c : Cell) (direction : Direction) : Cell :=
  let '(dx, dy) := value direction in mkCell (x c + dx) (y c + dy).

(** The test [0 <= c.x < width and 0 <= c.y < height]. *)
Definition in_bounds (width height : Z) (c : Cell) : Prop :=
  (0 <= x c < width) /\ (0 <= y c < height).

#[export] Instance in_bounds_dec width height c : Decision (in_bounds width height c).
Proof. unfold in_bounds. apply _. Defined.

(** The canonical ordering applied by both [is_wall_between] methods: the
    pair is swapped when [cell1] comes after [cell2], comparing x, then y. *)
Definition wall_key (cell1 cell2 : Cell) : Cell * Cell :=
  if decide (x cell1 > x cell2 \/ (x cell1 = x cell2 /\ y cell1 > y cell2))
  then (cell2, cell1) else (cell1, cell2).

(** [range(n)] *)
Definition range (n : Z) : list Z := seqZ 0 n.

(** ** The generator *)

Module MazeGenerator.

(** [init_walls]: the body of the inner loop, the inner [for x] loop and
    the outer [for y] loop, each adding to [self.walls]. *)
Definition init_cell (width height : Z) (y0 : Z) (walls : gset (Cell * Cell))
    (x0 : Z) : gset (Cell * Cell) :=
  let cell := mkCell x0 y0 in
  let walls :=
    if decide (x0 < width - 1)
    then ({[ (cell, get_neighbor cell RIGHT) ]} ∪ walls) else walls in
  if decide (y0 < height - 1)
  then ({[ (cell, get_neighbor cell DOWN) ]} ∪ walls) else walls.

Definition init_row (width height : Z) (walls : gset (Cell * Cell)) (y0 : Z)
    : gset (Cell * Cell) :=
  foldl (init_cell width height y0) walls (range width).

Definition init_walls (width height : Z) : gset (Cell * Cell) :=
  foldl (init_row width height) ∅ (range height).

Definition _add_frontier_cells (width height : Z) (cell : Cell)
    (visited frontier : gset Cell) : gset Cell :=
  foldl (fun frontier direction =>
    let neighbor := get_neighbor cell direction in
    if decide (in_bounds width height neighbor) then
      if decide ((neighbor ∉ visited) /\ (neighbor ∉ frontier))
      then ({[ neighbor ]} ∪ frontier) else frontier
    else frontier)
  frontier directions.

Definition _remove_wall (walls : gset (Cell * Cell)) (cell1 cell2 : Cell)
    : gset (Cell * Cell) :=
  let '(cell1, cell2) :=
    if decide (x cell1 > x cell2 \/ y cell1 > y cell2)
    then (cell2, cell1) else (cell1, cell2) in
  if decide ((cell1, cell2) ∈ walls)
  then (walls ∖ {[ (cell1, cell2) ]}) else walls.

Definition is_wall_between (walls : gset (Cell * Cell)) (cell1 cell2 : Cell)
    : bool :=
  bool_decide (wall_key cell1 cell2 ∈ walls).

(** The body of the [for direction in Direction] loop of [_has_path], on
    the pair (visited, queue). *)
Definition bfs_visit (width height : Z) (walls : gset (Cell * Cell))
    (current : Cell) (state : gset Cell * list Cell) (direction : Direction)
    : gset Cell * list Cell :=
  let '(visited, queue) := state in
  let neighbor := get_neighbor current direction in
  if decide (in_bounds width height neighbor) then
    if decide ((neighbor ∉ visited) /\ ¬ is_wall_between walls current neighbor)
    then ({[ neighbor ]} ∪ visited, queue ++ [neighbor])
    else (visited, queue)
  else (visited, queue).

Definition bfs_expand (width height : Z) (walls : gset (Cell * Cell))
    (current : Cell) (visited : gset Cell) (queue : list Cell)
    : gset Cell * list Cell :=
  foldl (bfs_visit width height walls current) (visited, queue) directions.

(** The [while queue] loop of [_has_path]. *)
Fixpoint bfs_loop (fuel : nat) (width height : Z) (walls : gset (Cell * Cell))
    (end_ : Cell) (visited : gset Cell) (queue : list Cell) : option bool :=
  match queue with
  | [] => Some false
  | current :: queue =>
      if decide (current = end_) then Some true
      else match fuel with
           | O => None
           | S fuel =>
               let '(visited, queue) :=
                 bfs_expand width height walls current visited queue in
               bfs_loop fuel width height walls end_ visited queue
           end
  end.

Definition _has_path (fuel : nat) (width height : Z)
    (walls : gset (Cell * Cell)) (start end_ : Cell) : option bool :=
  bfs_loop fuel width height walls end_ {[ start ]} [start].

(** The first [if/elif] cascade of [_create_path]: the move toward the goal. *)
Definition toward (current end_ : Cell) : Cell :=
  if decide (x current < x end_) then get_neighbor current RIGHT
  else if decide (x current > x end_) then get_neighbor current LEFT
  else if decide (y current < y end_) then get_neighbor current DOWN
  else get_neighbor current UP.

(** The [for ... break] scan for an in-bounds cell not yet on the walk;
    [next_cell] is left as it was when the scan finds nothing. *)
Definition other_direction (width height : Z) (current : Cell)
    (visited : gset Cell) (next_cell : Cell) : Cell :=
  default next_cell
    (head (filter (fun candidate =>
                     in_bounds width height candidate /\ candidate ∉ visited)
                  (get_neighbor current <$> directions))).

(** How the loop of [_create_path] was left. *)
Inductive Exit : Set := AtEnd | PathEmpty.

Record Walk : Type := mkWalk {
  w_walls : gset (Cell * Cell);
  w_current : Cell;
  w_visited : gset Cell;
  w_path : list Cell;
  w_exit : Exit
}.

(** The [while current != end] loop of [_create_path].  [path] is the Python
    list: [append] adds at the back, [pop] drops the back, [path[-1]] is
    [last].  A [Cell] object is always truthy, so [if next_cell and ...] is
    the bounds test alone. *)
Fixpoint create_loop (fuel : nat) (width height : Z)
    (walls : gset (Cell * Cell)) (end_ current : Cell)
    (visited : gset Cell) (path : list Cell) : option Walk :=
  if decide (current = end_)
  then Some (mkWalk walls current visited path AtEnd)
  else match fuel with
       | O => None
       | S fuel =>
           let next_cell := toward current end_ in
           let next_cell :=
             if decide (¬ in_bounds width height next_cell \/ next_cell ∈ visited)
             then other_direction width height current visited next_cell
             else next_cell in
           if decide (in_bounds width height next_cell) then
             create_loop fuel width height
               (_remove_wall walls current next_cell) end_ next_cell
               ({[ next_cell ]} ∪ visited) (path ++ [next_cell])
           else
             match path with
             | [] => None
             | _ :: _ =>
                 let path := removelast path in
                 match last path with
                 | None => Some (mkWalk walls current visited path PathEmpty)
                 | Some back => create_loop fuel width height walls end_ back visited path
                 end
             end
       end.

Definition _create_path (fuel : nat) (width height : Z)
    (walls : gset (Cell * Cell)) (start end_ : Cell) : option Walk :=
  create_loop fuel width height walls end_ start {[ start ]} [start].

Definition _ensure_path_exists (fuel : nat) (width height : Z)
    (walls : gset (Cell * Cell)) (start end_ : Cell)
    : option (gset (Cell * Cell)) :=
  found ← _has_path fuel width height walls start end_;
  if found : bool then Some walls
  else w_walls <$> _create_path fuel width height walls start end_.

Section Random.
Context {G : Type} (next : G -> nat * G).

(** [random.choice(seq)]; an empty [seq] raises [IndexError]. *)
Definition choice {A : Type} (seq_ : list A) (g : G) : option (A * G) :=
  let '(r, g) := next g in
  match seq_ !! (r mod length seq_)%nat with
  | Some a => Some (a, g)
  | None => None
  end.

(** The mutable state of the builder loop of [generate_maze]. *)
Record Builder : Type := mkBuilder {
  b_walls : gset (Cell * Cell);
  b_visited : gset Cell;
  b_frontier : gset Cell;
  b_rng : G
}.

(** The in-bounds neighbors of [current] that are already in the maze. *)
Definition visited_neighbors (width height : Z) (visited : gset Cell)
    (current : Cell) : list Cell :=
  filter (fun neighbor => in_bounds width height neighbor /\ neighbor ∈ visited)
         (get_neighbor current <$> directions).

(** One pass through the body of [while frontier]. *)
Definition build_step (width height : Z) (st : Builder) : option Builder :=
  '(current, g) ← choice (elements (b_frontier st)) (b_rng st);
  let frontier := b_frontier st ∖ {[ current ]} in
  let neighbors := visited_neighbors width height (b_visited st) current in
  match neighbors with
  | [] => Some (mkBuilder (b_walls st) (b_visited st) frontier g)
  | _ :: _ =>
      '(neighbor, g) ← choice neighbors g;
      let walls := _remove_wall (b_walls st) current neighbor in
      let visited := {[ current ]} ∪ b_visited st in
      Some (mkBuilder walls visited
              (_add_frontier_cells width height current visited frontier) g)
  end.

Fixpoint build_loop (fuel : nat) (width height : Z) (st : Builder)
    : option Builder :=
  if decide (b_frontier st = ∅) then Some st
  else match fuel with
       | O => None
       | S fuel => st ← build_step width height st; build_loop fuel width height st
       end.

(** The state on entry to the builder loop. *)
Definition build_init (width height : Z) (walls : gset (Cell * Cell)) (g : G)
    : Builder :=
  let start_cell := mkCell 0 0 in
  let visited := {[ start_cell ]} in
  mkBuilder walls visited
    (_add_frontier_cells width height start_cell visited ∅) g.

(** [generate_maze], run on the Wall Set [walls] of the object. *)
Definition generate_maze (fuel : nat) (width height : Z)
    (walls : gset (Cell * Cell)) (g : G) : option (gset (Cell * Cell) * G) :=
  st ← build_loop fuel width height (build_init width height walls g);
  walls ← _ensure_path_exists fuel width height (b_walls st)
            (mkCell 0 0) (mkCell (width - 1) (height - 1));
  Some (walls, b_rng st).

(** [MazeGenerator(width, height).generate_maze()] *)
Definition generate (fuel : nat) (width height : Z) (g : G)
    : option (gset (Cell * Cell) * G) :=
  generate_maze fuel width height (init_walls width height) g.

End Random.

End MazeGenerator.

(** ** The game's movement predicate *)

Module MazeGame.

Definition MAZE_SIZE : Z := 40.

Definition is_wall_between (walls : gset (Cell * Cell)) (cell1 cell2 : Cell)
    : bool :=
  bool_decide (wall_key cell1 cell2 ∈ walls).

(** A result together with the log of the Wall Set lookups made for it. *)
Definition Logged (A : Type) : Type := A * list (Cell * Cell).

Definition lookup_wall (walls : gset (Cell * Cell)) (cell1 cell2 : Cell)
    : Logged bool :=
  (is_wall_between walls cell1 cell2, [wall_key cell1 cell2]).

Definition not_ (p : Logged bool) : Logged bool := (negb p.1, p.2).

(** Python's short-circuit [and]: the right operand runs only after a
    true left operand. *)
Definition and_ (p q : Logged bool) : Logged bool :=
  if p.1 then (q.1, p.2 ++ q.2) else (false, p.2).

(** [can_move] with the grid size as a parameter ([MAZE_SIZE] in the
    source), keeping the log of lookups. *)
Definition can_move_logged (size : Z) (walls : gset (Cell * Cell))
    (from_cell to_cell : Cell) : Logged bool :=
  if decide (¬ in_bounds size size to_cell) then (false, [])
  else
    let dx := x to_cell - x from_cell in
    let dy := y to_cell - y from_cell in
    if decide (dx ≠ 0 /\ dy ≠ 0) then
      and_ (not_ (lookup_wall walls from_cell (mkCell (x from_cell + dx) (y from_cell))))
     (and_ (not_ (lookup_wall walls (mkCell (x from_cell + dx) (y from_cell)) to_cell))
     (and_ (not_ (lookup_wall walls from_cell (mkCell (x from_cell) (y from_cell + dy))))
           (not_ (lookup_wall walls (mkCell (x from_cell) (y from_cell + dy)) to_cell))))
    else not_ (lookup_wall walls from_cell to_cell).

Definition can_move (size : Z) (walls : gset (Cell * Cell))
    (from_cell to_cell : Cell) : bool :=
  (can_move_logged size walls from_cell to_cell).1.

(** Rendering constants of the module. *)
Definition WALL_WIDTH : Z := 3.
Definition PATH_WIDTH : Z := 12.
Definition DOT_SIZE : Z := 8.

(** [self.cell_size] and [self.screen_width] (equal to [self.screen_height])
    for a grid of [size] cells a side. *)
Definition cell_size : Z := PATH_WIDTH + WALL_WIDTH.
Definition screen_width (size : Z) : Z := size * cell_size + WALL_WIDTH.

(** [cell_to_pixel]: the pixel at the centre of a cell; [//] is [Z.div]. *)
Definition cell_to_pixel (cell : Cell) : Z * Z :=
  (x cell * cell_size + WALL_WIDTH + PATH_WIDTH / 2,
   y cell * cell_size + WALL_WIDTH + PATH_WIDTH / 2).

(** The key codes [handle_movement] tells apart; [K_other] is any other code. *)
Inductive Key : Set := K_UP | K_DOWN | K_LEFT | K_RIGHT | K_other.

Section Session.
Context {T : Type} {G : Type} (next : G -> nat * G).

(** The fields of a [MazeGame] object that the maze logic reads and writes.
    [T] is the type of clock readings.  The pygame handles and the
    key-repeat timers are not part of the embedding. *)
Record Game : Type := mkGame {
  walls : gset (Cell * Cell);
  player_pos : Cell;
  goal_pos : Cell;
  game_over : bool;
  start_time : T
}.

(** The maze part of [__init__]; [zero] is the literal 0 stored as the
    start time. *)
Definition new_game (fuel : nat) (size : Z) (zero : T) (g : G) : option (Game * G) :=
  '(walls, g) ← MazeGenerator.generate next fuel size size g;
  Some (mkGame walls (mkCell 0 0) (mkCell (size - 1) (size - 1)) false zero, g).

(** [reset_game]; [now] is the value read from [time.time()]. *)
Definition reset_game (fuel : nat) (size : Z) (now : T) (self : Game) (g : G)
    : option (Game * G) :=
  '(walls, g) ← MazeGenerator.generate next fuel size size g;
  Some (mkGame walls (mkCell 0 0) (goal_pos self) false now, g).

(** [handle_movement] *)
Definition handle_movement (size : Z) (self : Game) (key : Key) : Game :=
  let '(dx, dy) :=
    match key with
    | K_UP => (0, -1)
    | K_DOWN => (0, 1)
    | K_LEFT => (-1, 0)
    | K_RIGHT => (1, 0)
    | K_other => (0, 0)
    end in
  let new_pos := mkCell (x (player_pos self) + dx) (y (player_pos self) + dy) in
  if can_move size (walls self) (player_pos self) new_pos
  then mkGame (walls self) new_pos (goal_pos self) (game_over self) (start_time self)
  else self.

End Session.

End MazeGame.

(** * Vocabulary of the statements *)

Import MazeGenerator.

(** The direction pointing back. *)
Definition opposite (d : Direction) : Direction :=
  match d with UP => DOWN | RIGHT => LEFT | DOWN => UP | LEFT => RIGHT end.

(** All cells of the grid, column by column. *)
Definition cells (width height : Z) : list Cell :=
  x0 ← range width; mkCell x0 <$> range height.

Definition grid (width height : Z) : gset Cell := list_to_set (cells width height).

(** The two kinds of entries of the initial Wall Set. *)
Definition right_wall (c : Cell) : Cell * Cell := (c, get_neighbor c RIGHT).
Definition down_wall (c : Cell) : Cell * Cell := (c, get_neighbor c DOWN).

(** An open passage: two grid cells, one step apart, with no wall between. *)
Definition open_edge (width height : Z) (walls : gset (Cell * Cell)) (a b : Cell)
    : Prop :=
  in_bounds width height a /\ in_bounds width height b /\
  (exists d, b = get_neighbor a d) /\ ¬ is_wall_between walls a b.

(** Reachability through open passages. *)
Definition connected (width height : Z) (walls : gset (Cell * Cell))
    : Cell -> Cell -> Prop :=
  rtc (open_edge width height walls).

(** The open passages of a Wall Set that started out as [init_walls]: the
    initial entries that have been removed. *)
Definition open_edges (width height : Z) (walls : gset (Cell * Cell))
    : gset (Cell * Cell) :=
  init_walls width height ∖ walls.

(** [walk E p]: every cell of [p] is joined by [E] to the one after it. *)
Definition walk (E : Cell -> Cell -> Prop) (p : list Cell) : Prop :=
  forall (i : nat) (a b : Cell), p !! i = Some a -> p !! S i = Some b -> E a b.

(** A cycle: at least three distinct cells, each joined to the next and the
    last joined to the first. *)
Definition cycle (E : Cell -> Cell -> Prop) (p : list Cell) : Prop :=
  (3 <= length p)%nat /\ NoDup p /\ walk E p /\
  exists a z, head p = Some a /\ last p = Some z /\ E z a.

Definition acyclic (E : Cell -> Cell -> Prop) : Prop := forall p, ¬ cycle E p.

(** The invariant of the builder loop that concerns the two cell sets. *)
Record frontier_inv {G : Type} (width height : Z) (st : Builder (G:=G)) : Prop := {
  fi_start : mkCell 0 0 ∈ b_visited st;
  fi_visited : forall c, c ∈ b_visited st -> in_bounds width height c;
  fi_frontier : forall c, c ∈ b_frontier st ->
    in_bounds width height c /\ (c ∉ b_visited st) /\
    exists d, get_neighbor c d ∈ b_visited st;
  fi_closed : forall c d, c ∈ b_visited st ->
    in_bounds width height (get_neighbor c d) ->
    get_neighbor c d ∈ b_visited st \/ get_neighbor c d ∈ b_frontier st
}.

(** The states the builder loop passes through, from the entry state on. *)
Inductive build_reach {G : Type} (next : G -> nat * G) (width height : Z)
    (st0 : Builder (G:=G)) : Builder (G:=G) -> Prop :=
  | reach_entry : build_reach next width height st0 st0
  | reach_pass st st' :
      build_reach next width height st0 st ->
      b_frontier st ≠ ∅ ->
      build_step next width height st = Some st' ->
      build_reach next width height st0 st'.

(** The invariant of the builder loop that concerns the Wall Set: walls have
    only come down between cells of the maze, one per cell after the first,
    every cell of the maze can be reached from the start, and no passages
    close a cycle. *)
Record tree_inv {G : Type} (width height : Z) (st : Builder (G:=G)) : Prop := {
  ti_sub : b_walls st ⊆ init_walls width height;
  ti_ends : forall a b, (a, b) ∈ open_edges width height (b_walls st) ->
    a ∈ b_visited st /\ b ∈ b_visited st;
  ti_count : (size (open_edges width height (b_walls st)) + 1 = size (b_visited st))%nat;
  ti_conn : forall c, c ∈ b_visited st ->
    connected width height (b_walls st) (mkCell 0 0) c;
  ti_acyclic : acyclic (open_edge width height (b_walls st))
}.

(** A sample random source, for instances of the statements: a counter
    whose draws follow a linear congruence. *)
Definition sample_next (s : nat) : nat * nat := ((5 * s + 3) mod 17, S s)%nat.

(** The invariant of the search loop of [_has_path]: queued cells are
    marked, marked cells lie in the grid, and a marked cell that has left
    the queue is not the goal and has all its open neighbours marked. *)
Record bfs_inv (width height : Z) (walls : gset (Cell * Cell)) (start end_ : Cell)
    (visited : gset Cell) (queue : list Cell) : Prop := {
  bi_queue : forall c, c ∈ queue -> c ∈ visited;
  bi_grid : forall c, c ∈ visited -> in_bounds width height c;
  bi_start : start ∈ visited;
  bi_done : forall c, c ∈ visited -> c ∉ queue ->
    c ≠ end_ /\ forall b, open_edge width height walls c b -> b ∈ visited
}.

(** Distance left to walk, in steps. *)
Definition dist (c e : Cell) : Z := Z.abs (x c - x e) + Z.abs (y c - y e).

(** The state of the random source after [n] draws. *)
Definition advance {G : Type} (next : G -> nat * G) (n : nat) (g : G) : G :=
  Nat.iter n (fun g => (next g).2) g.

(** The arrow key that asks for a step in a direction. *)
Definition arrow (d : Direction) : MazeGame.Key :=
  match d with
  | UP => MazeGame.K_UP
  | RIGHT => MazeGame.K_RIGHT
  | DOWN => MazeGame.K_DOWN
  | LEFT => MazeGame.K_LEFT
  end.

(** The invariant of the search loop of [_has_path] behind a [True] answer:
    queued cells are marked and marked cells are grid cells reachable from
    the start. *)
Definition bfs_reached (width height : Z) (walls : gset (Cell * Cell)) (start : Cell)
    (visited : gset Cell) (queue : list Cell) : Prop :=
  (forall c, c ∈ queue -> c ∈ visited) /\
  (forall c, c ∈ visited ->
     in_bounds width height c /\ connected width height walls start c).

(** The player after a sequence of key presses, each handled by
    [handle_movement]. *)
Definition play {T : Type} (size : Z) (self : MazeGame.Game (T:=T))
    (keys : list MazeGame.Key) : MazeGame.Game (T:=T) :=
  foldl (MazeGame.handle_movement size) self keys.

(** * Properties *)

(** ** Coordinates and the set of grid cells *)

Lemma elem_of_range (n k : Z) : k ∈ range n <-> 0 <= k < n.
Proof. unfold range. rewrite elem_of_seqZ. lia. Qed.

Lemma cell_eta (c : Cell) : mkCell (x c) (y c) = c.
Proof. by destruct c. Qed.

Lemma cell_ext (a b : Cell) : x a = x b -> y a = y b -> a = b.
Proof. destruct a, b; simpl; congruence. Qed.

Lemma get_neighbor_x (c : Cell) (d : Direction) :
  x (get_neighbor c d) = x c + (value d).1.
Proof. by destruct d. Qed.

Lemma get_neighbor_y (c : Cell) (d : Direction) :
  y (get_neighbor c d) = y c + (value d).2.
Proof. by destruct d. Qed.

Lemma get_neighbor_opposite (c : Cell) (d : Direction) :
  get_neighbor (get_neighbor c d) (opposite d) = c.
Proof. destruct c as [cx cy], d; unfold get_neighbor; simpl; f_equal; lia. Qed.

Lemma get_neighbor_ne (c : Cell) (d : Direction) : get_neighbor c d ≠ c.
Proof. destruct c as [cx cy], d; unfold get_neighbor; simpl; intros [=]; lia. Qed.

Lemma elem_of_directions (d : Direction) : d ∈ directions.
Proof. unfold directions. destruct d; set_solver. Qed.

Lemma elem_of_cells (width height : Z) (c : Cell) :
  c ∈ cells width height <-> in_bounds width height c.
Proof.
  unfold cells, in_bounds. rewrite list_elem_of_bind. split.
  - intros (x0 & Hc & Hx). apply list_elem_of_fmap in Hc as (y0 & -> & Hy).
    apply elem_of_range in Hx, Hy. simpl. lia.
  - intros [Hx Hy]. exists (x c). split; [|by apply elem_of_range].
    apply list_elem_of_fmap. exists (y c). split; [by rewrite cell_eta|].
    by apply elem_of_range.
Qed.

Lemma elem_of_grid (width height : Z) (c : Cell) :
  c ∈ grid width height <-> in_bounds width height c.
Proof. unfold grid. rewrite elem_of_list_to_set. apply elem_of_cells. Qed.

Lemma length_bind_const {A B : Type} (f : A -> list B) (n : nat) (l : list A) :
  (forall a, length (f a) = n) -> length (l ≫= f) = (length l * n)%nat.
Proof.
  intros Hf. induction l as [|a l IH]; csimpl; [done|].
  rewrite length_app, Hf, IH. lia.
Qed.

Lemma NoDup_cells (width height : Z) : NoDup (cells width height).
Proof.
  unfold cells. apply NoDup_bind.
  - intros x1 x2 c _ _ (y1 & -> & _)%list_elem_of_fmap (y2 & [= ? ?] & _)%list_elem_of_fmap.
    done.
  - intros x0 _. apply NoDup_fmap_2; [|apply NoDup_seqZ].
    intros y1 y2 [=]; done.
  - apply NoDup_seqZ.
Qed.

Lemma size_grid (width height : Z) :
  0 <= width -> 0 <= height ->
  Z.of_nat (size (grid width height)) = width * height.
Proof.
  intros Hw Hh. unfold grid. rewrite size_list_to_set by apply NoDup_cells.
  unfold cells. rewrite (length_bind_const _ (Z.to_nat height)).
  - unfold range. rewrite length_seqZ. lia.
  - intros a. unfold range. by rewrite length_fmap, length_seqZ.
Qed.

Lemma size_set_map_inj `{Countable A, Countable B} (f : A -> B) (X : gset A) :
  Inj (=) (=) f -> size (set_map f X : gset B) = size X.
Proof.
  intros Hf. unfold set_map. rewrite size_list_to_set.
  - by rewrite length_fmap.
  - apply NoDup_fmap_2; [done|apply NoDup_elements].
Qed.

(** ** The initial Wall Set *)

Lemma elem_of_init_row (width height y0 : Z) (l : list Z)
    (acc : gset (Cell * Cell)) (e : Cell * Cell) :
  e ∈ foldl (init_cell width height y0) acc l <->
  e ∈ acc \/ exists x0, x0 ∈ l /\
    ((x0 < width - 1 /\ e = right_wall (mkCell x0 y0)) \/
     (y0 < height - 1 /\ e = down_wall (mkCell x0 y0))).
Proof.
  revert acc. induction l as [|x0 l IH]; intros acc; simpl.
  - set_solver.
  - rewrite IH. unfold init_cell, right_wall, down_wall.
    repeat case_decide; set_unfold; naive_solver.
Qed.

Lemma elem_of_init_rows (width height : Z) (l : list Z)
    (acc : gset (Cell * Cell)) (e : Cell * Cell) :
  e ∈ foldl (init_row width height) acc l <->
  e ∈ acc \/ exists x0 y0, x0 ∈ range width /\ y0 ∈ l /\
    ((x0 < width - 1 /\ e = right_wall (mkCell x0 y0)) \/
     (y0 < height - 1 /\ e = down_wall (mkCell x0 y0))).
Proof.
  revert acc. induction l as [|y0 l IH]; intros acc; simpl.
  - set_solver.
  - rewrite IH. unfold init_row. rewrite elem_of_init_row.
    set_unfold; naive_solver.
Qed.

(** Membership in the freshly built Wall Set. *)
Lemma elem_of_init_walls (width height : Z) (a b : Cell) :
  (a, b) ∈ init_walls width height <->
  in_bounds width height a /\
  ((x a < width - 1 /\ b = get_neighbor a RIGHT) \/
   (y a < height - 1 /\ b = get_neighbor a DOWN)).
Proof.
  unfold init_walls. rewrite elem_of_init_rows. unfold right_wall, down_wall, in_bounds.
  split.
  - intros [?|(x0 & y0 & Hx & Hy & H)]; [set_solver|].
    apply elem_of_range in Hx, Hy.
    destruct H as [[? [= -> ->]]|[? [= -> ->]]]; simpl; naive_solver lia.
  - intros [[Hx Hy] H]. right. exists (x a), (y a).
    rewrite !elem_of_range, cell_eta. naive_solver.
Qed.

Lemma init_walls_split (width height : Z) :
  init_walls width height =
  set_map right_wall (grid (width - 1) height) ∪ set_map down_wall (grid width (height - 1)).
Proof.
  apply set_eq. intros [a b]. rewrite elem_of_init_walls, elem_of_union, !elem_of_map.
  setoid_rewrite elem_of_grid. unfold right_wall, down_wall, in_bounds. split.
  - intros [[Hx Hy] [[? ->]|[? ->]]]; [left|right]; exists a; (split; [done|lia]).
  - intros [(c & [= -> ->] & ? & ?)|(c & [= -> ->] & ? & ?)];
      (split; [lia|]); [left|right]; (split; [lia|done]).
Qed.

Lemma size_init_walls (width height : Z) :
  1 <= width -> 1 <= height ->
  Z.of_nat (size (init_walls width height)) = 2 * width * height - width - height.
Proof.
  intros Hw Hh. rewrite init_walls_split, size_union.
  - rewrite !size_set_map_inj; try (intros c1 c2 [=]; done).
    rewrite Nat2Z.inj_add, !size_grid by lia. lia.
  - intros [a b] (c1 & [= -> ->] & _)%elem_of_map (c2 & [= -> Hc] & _)%elem_of_map.
    lia.
Qed.

(** ** Canonical keys, wall queries and wall removal *)

Lemma wall_key_sym (a b : Cell) : wall_key a b = wall_key b a.
Proof.
  unfold wall_key. destruct a as [ax ay], b as [bx b_y]; simpl.
  repeat case_decide; try done; try lia.
  f_equal; f_equal; lia.
Qed.

Lemma wall_key_cases (a b : Cell) : wall_key a b = (a, b) \/ wall_key a b = (b, a).
Proof. unfold wall_key. case_decide; auto. Qed.

Lemma wall_key_eq (a b c d : Cell) :
  wall_key a b = wall_key c d <-> (a = c /\ b = d) \/ (a = d /\ b = c).
Proof.
  split.
  - destruct (wall_key_cases a b) as [-> | ->], (wall_key_cases c d) as [-> | ->];
      intros [= -> ->]; auto.
  - intros [[-> ->] | [-> ->]]; [done | apply wall_key_sym].
Qed.

Lemma wall_key_neighbor (a : Cell) (d : Direction) :
  wall_key a (get_neighbor a d) =
  match d with
  | UP | LEFT => (get_neighbor a d, a)
  | RIGHT | DOWN => (a, get_neighbor a d)
  end.
Proof.
  unfold wall_key. rewrite get_neighbor_x, get_neighbor_y.
  destruct d; simpl; case_decide; try done; lia.
Qed.

(** Grid-adjacent cells in bounds are walled off in the initial Wall Set. *)
Lemma wall_key_init (width height : Z) (a : Cell) (d : Direction) :
  in_bounds width height a -> in_bounds width height (get_neighbor a d) ->
  wall_key a (get_neighbor a d) ∈ init_walls width height.
Proof.
  intros Ha Hb. rewrite wall_key_neighbor.
  pose proof (get_neighbor_opposite a d) as Hop.
  unfold in_bounds in *. rewrite get_neighbor_x, get_neighbor_y in Hb.
  destruct d; simpl in *; apply elem_of_init_walls; unfold in_bounds;
    rewrite ?get_neighbor_x, ?get_neighbor_y; simpl;
    (split; [lia|]); [right | left | right | left]; (split; [lia|]); done.
Qed.

(** No cell is walled off from itself. *)
Lemma init_walls_irrefl (width height : Z) (c : Cell) :
  (c, c) ∉ init_walls width height.
Proof.
  rewrite elem_of_init_walls. intros [_ [[_ H]|[_ H]]];
    symmetry in H; by apply get_neighbor_ne in H.
Qed.

(** On grid-adjacent cells [_remove_wall] deletes the key that
    [is_wall_between] looks up. *)
Lemma remove_wall_neighbor (walls : gset (Cell * Cell)) (a : Cell) (d : Direction) :
  _remove_wall walls a (get_neighbor a d) = walls ∖ {[ wall_key a (get_neighbor a d) ]}.
Proof.
  unfold _remove_wall. rewrite wall_key_neighbor, get_neighbor_x, get_neighbor_y.
  destruct d; simpl; repeat case_decide; try lia; try done; set_solver.
Qed.

Lemma remove_wall_subseteq (walls : gset (Cell * Cell)) (a b : Cell) :
  _remove_wall walls a b ⊆ walls.
Proof. unfold _remove_wall. repeat case_decide; set_solver. Qed.

Lemma is_wall_between_init (width height : Z) (a : Cell) (d : Direction) :
  in_bounds width height a -> in_bounds width height (get_neighbor a d) ->
  is_wall_between (init_walls width height) a (get_neighbor a d) = true.
Proof.
  intros Ha Hb. unfold is_wall_between. apply bool_decide_eq_true.
  by apply wall_key_init.
Qed.

(** ** The initial Wall Set is full *)

(** C7. On a grid of [width] by [height] cells the Wall Set built by
    [init_walls] has exactly 2*width*height - width - height entries; its
    entries are exactly the pairs (cell, right neighbor) for cells with
    x < width - 1 and (cell, down neighbor) for cells with y < height - 1; and
    every pair of grid-adjacent cells is walled. *)
Theorem init_walls_full (width height : Z) :
  1 <= width -> 1 <= height ->
  Z.of_nat (size (init_walls width height)) = 2 * width * height - width - height /\
  (forall a b : Cell,
     (a, b) ∈ init_walls width height <->
     in_bounds width height a /\
     ((x a < width - 1 /\ b = get_neighbor a RIGHT) \/
      (y a < height - 1 /\ b = get_neighbor a DOWN))) /\
  (forall (a : Cell) (d : Direction),
     in_bounds width height a -> in_bounds width height (get_neighbor a d) ->
     is_wall_between (init_walls width height) a (get_neighbor a d) = true).
Proof.
  intros Hw Hh. split; [by apply size_init_walls|]. split.
  - apply elem_of_init_walls.
  - apply is_wall_between_init.
Qed.

Lemma init_walls_full_witness :
  Z.of_nat (size (init_walls 3 2)) = 2 * 3 * 2 - 3 - 2 /\
  (forall a b : Cell,
     (a, b) ∈ init_walls 3 2 <->
     in_bounds 3 2 a /\
     ((x a < 3 - 1 /\ b = get_neighbor a RIGHT) \/
      (y a < 2 - 1 /\ b = get_neighbor a DOWN))) /\
  (forall (a : Cell) (d : Direction),
     in_bounds 3 2 a -> in_bounds 3 2 (get_neighbor a d) ->
     is_wall_between (init_walls 3 2) a (get_neighbor a d) = true).
Proof. apply (init_walls_full 3 2); lia. Defined.

(** ** Wall queries and movement *)

(** C8. The wall query is symmetric, in the generator and in the game: for
    all cells a and b (grid-adjacent or not) and every Wall Set,
    [is_wall_between a b] equals [is_wall_between b a]. *)
Theorem is_wall_between_symmetric (walls : gset (Cell * Cell)) (a b : Cell) :
  MazeGenerator.is_wall_between walls a b = MazeGenerator.is_wall_between walls b a /\
  MazeGame.is_wall_between walls a b = MazeGame.is_wall_between walls b a.
Proof.
  unfold MazeGenerator.is_wall_between, MazeGame.is_wall_between.
  by rewrite (wall_key_sym a b).
Qed.

Lemma and_true (p q : MazeGame.Logged bool) :
  (MazeGame.and_ p q).1 = true -> p.1 = true /\ q.1 = true.
Proof. unfold MazeGame.and_. destruct p as [[] ?]; simpl; auto; discriminate. Qed.

Lemma not_lookup_true (walls : gset (Cell * Cell)) (a b : Cell) :
  (MazeGame.not_ (MazeGame.lookup_wall walls a b)).1 = true ->
  MazeGame.is_wall_between walls a b = false.
Proof. simpl. by intros ->%negb_true_iff. Qed.

Lemma can_move_diagonal_open (size : Z) (walls : gset (Cell * Cell))
    (from_cell to_cell : Cell) :
  let dx := x to_cell - x from_cell in
  let dy := y to_cell - y from_cell in
  dx ≠ 0 -> dy ≠ 0 ->
  MazeGame.can_move size walls from_cell to_cell = true ->
  MazeGame.is_wall_between walls from_cell
    (mkCell (x from_cell + dx) (y from_cell)) = false /\
  MazeGame.is_wall_between walls
    (mkCell (x from_cell + dx) (y from_cell)) to_cell = false /\
  MazeGame.is_wall_between walls from_cell
    (mkCell (x from_cell) (y from_cell + dy)) = false /\
  MazeGame.is_wall_between walls
    (mkCell (x from_cell) (y from_cell + dy)) to_cell = false.
Proof.
  intros dx dy Hdx Hdy.
  unfold MazeGame.can_move, MazeGame.can_move_logged.
  case_decide; [discriminate|].
  rewrite decide_True by done.
  fold dx dy.
  intros [H1 [H2 [H3 H4]%and_true]%and_true]%and_true.
  by apply not_lookup_true in H1, H2, H3, H4.
Qed.

(** C5. A diagonal step to a cell in bounds is allowed only if the four
    edges of both L-shaped corner paths are open; in particular, with the
    wall (1,0)-(1,1) present, the step from (0,0) to (1,1) is refused,
    whatever the other edges and the grid size are. *)
Theorem can_move_diagonal_needs_both_corners :
  (forall (size : Z) (walls : gset (Cell * Cell)) (from_cell to_cell : Cell),
     let dx := x to_cell - x from_cell in
     let dy := y to_cell - y from_cell in
     in_bounds size size to_cell -> Z.abs dx = 1 -> Z.abs dy = 1 ->
     MazeGame.can_move size walls from_cell to_cell = true ->
     MazeGame.is_wall_between walls from_cell
       (mkCell (x from_cell + dx) (y from_cell)) = false /\
     MazeGame.is_wall_between walls
       (mkCell (x from_cell + dx) (y from_cell)) to_cell = false /\
     MazeGame.is_wall_between walls from_cell
       (mkCell (x from_cell) (y from_cell + dy)) = false /\
     MazeGame.is_wall_between walls
       (mkCell (x from_cell) (y from_cell + dy)) to_cell = false) /\
  (forall (size : Z) (walls : gset (Cell * Cell)),
     (mkCell 1 0, mkCell 1 1) ∈ walls ->
     MazeGame.can_move size walls (mkCell 0 0) (mkCell 1 1) = false).
Proof.
  split.
  - intros size walls from_cell to_cell dx dy _ Hdx Hdy.
    apply can_move_diagonal_open; subst dx dy; lia.
  - intros size walls Hwall.
    destruct (MazeGame.can_move size walls (mkCell 0 0) (mkCell 1 1)) eqn:Hmove; [|done].
    apply can_move_diagonal_open in Hmove as (_ & Hopen & _); simpl; [|lia..].
    simpl in Hopen. apply bool_decide_eq_false in Hopen. done.
Qed.

Lemma can_move_diagonal_needs_both_corners_witness :
  MazeGame.can_move 2 {[ (mkCell 1 0, mkCell 1 1) ]} (mkCell 0 0) (mkCell 1 1) = false.
Proof.
  apply (proj2 can_move_diagonal_needs_both_corners 2 {[ (mkCell 1 0, mkCell 1 1) ]}).
  apply elem_of_singleton. reflexivity.
Defined.

(** C6. A destination outside the grid is refused, and no Wall Set lookup
    is made for it: the log of lookups is empty.  The bounds are those of
    a [size] by [size] grid, [MAZE_SIZE] in the game. *)
Theorem can_move_rejects_out_of_bounds (size : Z) (walls : gset (Cell * Cell))
    (from_cell to_cell : Cell) :
  ¬ in_bounds size size to_cell ->
  MazeGame.can_move size walls from_cell to_cell = false /\
  MazeGame.can_move_logged size walls from_cell to_cell = (false, []).
Proof.
  intros Hout. unfold MazeGame.can_move, MazeGame.can_move_logged.
  by rewrite decide_True.
Qed.

Lemma can_move_rejects_out_of_bounds_witness :
  MazeGame.can_move MazeGame.MAZE_SIZE (init_walls 40 40) (mkCell 39 0) (mkCell 40 0) = false /\
  MazeGame.can_move_logged MazeGame.MAZE_SIZE (init_walls 40 40) (mkCell 39 0) (mkCell 40 0)
    = (false, []).
Proof.
  apply (can_move_rejects_out_of_bounds MazeGame.MAZE_SIZE (init_walls 40 40)
           (mkCell 39 0) (mkCell 40 0)).
  unfold in_bounds, MazeGame.MAZE_SIZE. simpl. lia.
Defined.

(** C10. Asking to move from an in-bounds cell to itself is allowed in
    every state of the Wall Set, that is, for every subset of the initial
    Wall Set: the pair (c, c) is never an entry. *)
Theorem can_move_same_cell (size : Z) (walls : gset (Cell * Cell)) (c : Cell) :
  in_bounds size size c -> walls ⊆ init_walls size size ->
  MazeGame.can_move size walls c c = true /\ (c, c) ∉ walls.
Proof.
  intros Hc Hsub.
  assert ((c, c) ∉ walls) as Hcc.
  { intros Hin. by apply (init_walls_irrefl size size c), Hsub. }
  split; [|done].
  unfold MazeGame.can_move, MazeGame.can_move_logged.
  rewrite decide_False by tauto.
  rewrite decide_False by lia.
  simpl. apply negb_true_iff, bool_decide_eq_false.
  unfold wall_key. rewrite decide_False by lia. done.
Qed.

Lemma can_move_same_cell_witness :
  MazeGame.can_move 2 (init_walls 2 2) (mkCell 1 1) (mkCell 1 1) = true /\
  (mkCell 1 1, mkCell 1 1) ∉ init_walls 2 2.
Proof.
  apply (can_move_same_cell 2 (init_walls 2 2) (mkCell 1 1)).
  - unfold in_bounds. simpl. lia.
  - reflexivity.
Defined.

(** ** The builder loop: visited cells and frontier *)

Section BuilderSets.
Context {G : Type} (next : G -> nat * G) (width height : Z).

Lemma choice_elem {A : Type} (l : list A) (g : G) :
  l ≠ [] -> exists a, choice next l g = Some (a, (next g).2) /\ a ∈ l.
Proof.
  intros Hl. unfold choice. destruct (next g) as [r g']. simpl.
  assert (r mod length l < length l)%nat as Hlt.
  { apply Nat.mod_upper_bound. destruct l; [done|simpl; lia]. }
  destruct (lookup_lt_is_Some_2 l _ Hlt) as [a Ha].
  exists a. rewrite Ha. split; [done|]. by eapply list_elem_of_lookup_2.
Qed.

Lemma choice_inv {A : Type} (l : list A) (g g' : G) (a : A) :
  choice next l g = Some (a, g') -> a ∈ l /\ g' = (next g).2.
Proof.
  unfold choice. destruct (next g) as [r g1]. simpl.
  destruct (l !! _) as [b|] eqn:Hb; [|done].
  intros [= -> ->]. split; [by eapply list_elem_of_lookup_2|done].
Qed.

Lemma elem_of_add_frontier_cells (cell : Cell) (visited frontier : gset Cell) (c : Cell) :
  c ∈ _add_frontier_cells width height cell visited frontier <->
  c ∈ frontier \/
  (exists d, c = get_neighbor cell d) /\ in_bounds width height c /\ c ∉ visited.
Proof.
  unfold _add_frontier_cells.
  assert (forall (l : list Direction) (fr : gset Cell),
    c ∈ foldl (fun (frontier : gset Cell) direction =>
      let neighbor := get_neighbor cell direction in
      if decide (in_bounds width height neighbor) then
        if decide ((neighbor ∉ visited) /\ (neighbor ∉ frontier))
        then ({[ neighbor ]} ∪ frontier) else frontier
      else frontier) fr l <->
    c ∈ fr \/ (exists d, d ∈ l /\ c = get_neighbor cell d) /\
              in_bounds width height c /\ c ∉ visited) as Hgen.
  { induction l as [|d l IH]; intros fr; simpl.
    - set_solver.
    - rewrite IH. repeat case_decide; set_unfold; try naive_solver.
      destruct (decide (get_neighbor cell d ∈ visited)),
               (decide (get_neighbor cell d ∈ fr)); naive_solver. }
  rewrite Hgen. split.
  - intros [?|((d & _ & ->) & ? & ?)]; eauto.
  - intros [?|((d & ->) & ? & ?)]; [by left|right].
    split; [|done]. exists d. split; [apply elem_of_directions|done].
Qed.

Lemma elem_of_visited_neighbors (visited : gset Cell) (current n : Cell) :
  n ∈ visited_neighbors width height visited current <->
  (exists d, n = get_neighbor current d) /\ in_bounds width height n /\ n ∈ visited.
Proof.
  unfold visited_neighbors. rewrite list_elem_of_filter, list_elem_of_fmap. split.
  - intros [[? ?] (d & -> & _)]. eauto.
  - intros [(d & ->) [? ?]]. split; [done|]. exists d.
    split; [done|apply elem_of_directions].
Qed.

(** What one pass of the loop does, when the frontier invariant holds:
    a frontier cell is drawn, it has a visited neighbour, the wall to one
    such neighbour comes down and the cell joins the maze. *)
Lemma build_step_frontier (st : Builder) :
  frontier_inv width height st -> b_frontier st ≠ ∅ ->
  exists current d g,
    current ∈ b_frontier st /\
    in_bounds width height (get_neighbor current d) /\
    get_neighbor current d ∈ b_visited st /\
    choice next (elements (b_frontier st)) (b_rng st) = Some (current, (next (b_rng st)).2) /\
    visited_neighbors width height (b_visited st) current ≠ [] /\
    build_step next width height st =
      Some (mkBuilder
              (_remove_wall (b_walls st) current (get_neighbor current d))
              ({[ current ]} ∪ b_visited st)
              (_add_frontier_cells width height current
                 ({[ current ]} ∪ b_visited st) (b_frontier st ∖ {[ current ]}))
              g).
Proof.
  intros Hinv Hne. unfold build_step.
  destruct (choice_elem (elements (b_frontier st)) (b_rng st)) as (current & Hch & Hcur).
  { intros Hnil. by apply elements_empty_inv, leibniz_equiv in Hnil. }
  apply elem_of_elements in Hcur.
  destruct (fi_frontier _ _ _ Hinv current Hcur) as (Hb & Hnv & d0 & Hd0).
  assert (get_neighbor current d0 ∈ visited_neighbors width height (b_visited st) current) as Hn0.
  { apply elem_of_visited_neighbors. split; [by exists d0|].
    split; [by apply (fi_visited _ _ _ Hinv)|done]. }
  rewrite Hch. simpl.
  destruct (visited_neighbors width height (b_visited st) current) as [|n0 ns] eqn:Hns.
  { by apply not_elem_of_nil in Hn0. }
  destruct (choice_elem (n0 :: ns) (next (b_rng st)).2) as (n & Hchn & Hn); [done|].
  rewrite Hchn. simpl.
  rewrite <- Hns in Hn. apply elem_of_visited_neighbors in Hn as ((d & ->) & Hnb & Hnv').
  exists current, d, (next (next (b_rng st)).2).2.
  split_and!; try done. by rewrite Hns.
Qed.

Lemma frontier_inv_init (walls : gset (Cell * Cell)) (g : G) :
  1 <= width -> 1 <= height ->
  frontier_inv width height (build_init width height walls g).
Proof.
  intros Hw Hh. unfold build_init. split; simpl.
  - set_solver.
  - intros c ->%elem_of_singleton. unfold in_bounds. simpl. lia.
  - intros c Hc. apply elem_of_add_frontier_cells in Hc as [?|((d & ->) & ? & ?)];
      [set_solver|].
    split_and!; [done..|]. exists (opposite d). rewrite get_neighbor_opposite. set_solver.
  - intros c d ->%elem_of_singleton Hb.
    destruct (decide (get_neighbor (mkCell 0 0) d ∈ ({[mkCell 0 0]} : gset Cell))); [by left|].
    right. apply elem_of_add_frontier_cells. right. eauto.
Qed.

Lemma frontier_inv_step (st st' : Builder) :
  frontier_inv width height st -> b_frontier st ≠ ∅ ->
  build_step next width height st = Some st' ->
  frontier_inv width height st'.
Proof.
  intros Hinv Hne Hstep.
  destruct (build_step_frontier st Hinv Hne) as (current & d & g & Hcur & Hnb & Hnv & _ & _ & Heq).
  rewrite Heq in Hstep. injection Hstep as <-.
  destruct (fi_frontier _ _ _ Hinv current Hcur) as (Hcb & Hcnv & _).
  split; simpl.
  - apply elem_of_union_r, (fi_start _ _ _ Hinv).
  - intros c [->%elem_of_singleton|Hc]%elem_of_union; [done|].
    by apply (fi_visited _ _ _ Hinv).
  - intros c Hc. apply elem_of_add_frontier_cells in Hc as [Hc|((d' & ->) & ? & ?)].
    + apply elem_of_difference in Hc as [Hc Hcc].
      destruct (fi_frontier _ _ _ Hinv c Hc) as (? & ? & d' & ?).
      split_and!; [done|set_solver|]. exists d'. set_solver.
    + split_and!; [done..|]. exists (opposite d').
      rewrite get_neighbor_opposite. set_solver.
  - intros c d' Hc Hb.
    destruct (decide (get_neighbor c d' ∈ {[current]} ∪ b_visited st)) as [|Hnot]; [by left|].
    right. apply elem_of_add_frontier_cells.
    apply elem_of_union in Hc as [->%elem_of_singleton|Hc].
    + right. eauto.
    + left. destruct (fi_closed _ _ _ Hinv c d' Hc Hb); set_solver.
Qed.

Lemma frontier_inv_reach (st0 st : Builder) :
  frontier_inv width height st0 ->
  build_reach next width height st0 st -> frontier_inv width height st.
Proof. intros H0. induction 1; eauto using frontier_inv_step. Qed.

End BuilderSets.

(** ** Open passages and cycles *)

Lemma open_edge_sym (width height : Z) (walls : gset (Cell * Cell)) (a b : Cell) :
  open_edge width height walls a b -> open_edge width height walls b a.
Proof.
  intros (Ha & Hb & (d & ->) & Hw). split_and!; try done.
  - exists (opposite d). by rewrite get_neighbor_opposite.
  - unfold is_wall_between in *. by rewrite wall_key_sym.
Qed.

Lemma open_edge_mono (width height : Z) (walls walls' : gset (Cell * Cell)) (a b : Cell) :
  walls' ⊆ walls ->
  open_edge width height walls a b -> open_edge width height walls' a b.
Proof.
  intros Hsub (Ha & Hb & Hd & Hw). split_and!; try done.
  unfold is_wall_between in *. rewrite bool_decide_spec in *. set_solver.
Qed.

Lemma connected_mono (width height : Z) (walls walls' : gset (Cell * Cell)) (a b : Cell) :
  walls' ⊆ walls ->
  connected width height walls a b -> connected width height walls' a b.
Proof.
  intros Hsub. apply rtc_subrel. intros c1 c2. by apply open_edge_mono.
Qed.

Lemma open_edge_key (width height : Z) (walls : gset (Cell * Cell)) (a b : Cell) :
  open_edge width height walls a b ->
  wall_key a b ∈ open_edges width height walls.
Proof.
  intros (Ha & Hb & (d & ->) & Hw). unfold open_edges. apply elem_of_difference.
  split; [by apply wall_key_init|].
  unfold is_wall_between in Hw. by rewrite bool_decide_spec in Hw.
Qed.

(** The open passages after the wall between [c] and its neighbour [n]
    has come down. *)
Lemma open_edge_remove (width height : Z) (walls : gset (Cell * Cell))
    (c : Cell) (d : Direction) (a b : Cell) :
  let n := get_neighbor c d in
  open_edge width height (walls ∖ {[ wall_key c n ]}) a b ->
  open_edge width height walls a b \/ (a = c /\ b = n) \/ (a = n /\ b = c).
Proof.
  intros n (Ha & Hb & Hd & Hw).
  destruct (decide (wall_key a b = wall_key c n)) as [Heq|Hne].
  - right. by apply wall_key_eq in Heq.
  - left. split_and!; try done.
    unfold is_wall_between in *. rewrite bool_decide_spec in *. set_solver.
Qed.

Lemma open_edge_removed (width height : Z) (walls : gset (Cell * Cell))
    (c : Cell) (d : Direction) :
  let n := get_neighbor c d in
  in_bounds width height c -> in_bounds width height n ->
  open_edge width height (walls ∖ {[ wall_key c n ]}) n c.
Proof.
  intros n Hc Hn. apply open_edge_sym. split_and!; try done.
  - by exists d.
  - unfold is_wall_between. rewrite bool_decide_spec. set_solver.
Qed.

Lemma walk_impl (E E' : Cell -> Cell -> Prop) (p : list Cell) :
  (forall a b, a ∈ p -> b ∈ p -> E a b -> E' a b) -> walk E p -> walk E' p.
Proof.
  intros Himpl Hwalk i a b Ha Hb.
  apply Himpl; [by eapply list_elem_of_lookup_2..|]. by eapply Hwalk.
Qed.

(** On a cycle every cell has two distinct neighbours. *)
Lemma cycle_neighbors (E : Cell -> Cell -> Prop) (p : list Cell) (c : Cell) :
  cycle E p -> c ∈ p -> exists a b, a ≠ b /\ E a c /\ E c b.
Proof.
  intros (Hlen & Hnd & Hwalk & (h & z & Hh & Hz & Hzh)) Hc.
  rewrite head_lookup in Hh. rewrite last_lookup in Hz.
  apply list_elem_of_lookup in Hc as [i Hi].
  pose proof (lookup_lt_Some _ _ _ Hi) as Hilt.
  destruct (decide (i = 0%nat)) as [->|Hi0].
  - (* the first cell: its neighbours are the last and the second *)
    destruct (lookup_lt_is_Some_2 p 1) as [b Hb]; [lia|].
    assert (h = c) as -> by congruence.
    exists z, b. split_and!; [|done|by eapply Hwalk].
    intros ->. assert (pred (length p) = 1)%nat by (by eapply NoDup_lookup). lia.
  - destruct (lookup_lt_is_Some_2 p (pred i)) as [a Ha]; [lia|].
    assert (E a c) as Hac.
    { eapply Hwalk; [exact Ha|]. by replace (S (pred i)) with i by lia. }
    destruct (decide (S i = length p)) as [Hlast|Hmid].
    + (* the last cell: its neighbours are the one before and the first *)
      assert (z = c) as ->.
      { replace (pred (length p)) with i in Hz by lia. congruence. }
      exists a, h. split_and!; [|done..].
      intros ->. assert (pred i = 0)%nat by (by eapply NoDup_lookup). lia.
    + destruct (lookup_lt_is_Some_2 p (S i)) as [b Hb]; [lia|].
      exists a, b. split_and!; [|done|by eapply Hwalk].
      intros ->. assert (pred i = S i)%nat by (by eapply NoDup_lookup). lia.
Qed.

(** ** The builder loop: the Wall Set *)

Section BuilderTree.
Context {G : Type} (next : G -> nat * G) (width height : Z).

Lemma tree_inv_init (g : G) :
  tree_inv width height (build_init width height (init_walls width height) g).
Proof.
  unfold build_init. split; cbn [b_walls b_visited b_frontier].
  - done.
  - intros a b. unfold open_edges. set_solver.
  - unfold open_edges. by rewrite difference_diag_L, size_empty, size_singleton.
  - intros c ->%elem_of_singleton. apply rtc_refl.
  - intros p (Hlen & _ & Hwalk & _).
    destruct (lookup_lt_is_Some_2 p 0) as [a Ha]; [lia|].
    destruct (lookup_lt_is_Some_2 p 1) as [b Hb]; [lia|].
    destruct (Hwalk 0%nat a b Ha Hb) as (Hab & Hbb & (d & ->) & Hw).
    by rewrite is_wall_between_init in Hw.
Qed.

Lemma tree_inv_step (st st' : Builder) :
  frontier_inv width height st -> tree_inv width height st ->
  b_frontier st ≠ ∅ ->
  build_step next width height st = Some st' ->
  tree_inv width height st'.
Proof.
  intros Hfi Hti Hne Hstep.
  destruct (build_step_frontier next width height st Hfi Hne)
    as (current & d & g & Hcur & Hnb & Hnv & _ & _ & Heq).
  rewrite Heq in Hstep. injection Hstep as <-.
  destruct (fi_frontier _ _ _ Hfi current Hcur) as (Hcb & Hcnv & _).
  rewrite remove_wall_neighbor.
  set (n := get_neighbor current d) in *.
  set (k := wall_key current n).
  assert (k ∈ init_walls width height) as Hk_init by (by apply wall_key_init).
  assert (forall b, wall_key current b ∉ open_edges width height (b_walls st)) as Hfresh.
  { intros b Hin.
    destruct (wall_key_cases current b) as [Hkey|Hkey]; rewrite Hkey in Hin;
      apply (ti_ends _ _ _ Hti) in Hin as [? ?]; done. }
  assert (k ∈ b_walls st) as Hk_walls.
  { destruct (decide (k ∈ b_walls st)) as [|Hout]; [done|].
    exfalso. apply (Hfresh n). unfold open_edges. set_solver. }
  assert (open_edges width height (b_walls st ∖ {[k]})
          = {[k]} ∪ open_edges width height (b_walls st)) as Hopen.
  { unfold open_edges. apply set_eq. intros e.
    destruct (decide (e = k)); set_solver. }
  assert (forall b, ¬ open_edge width height (b_walls st) current b) as Hiso.
  { intros b Hedge. by apply open_edge_key, Hfresh in Hedge. }
  assert (n ≠ current) as Hnc by (intros Heq'; by rewrite Heq' in Hnv).
  split; simpl.
  - pose proof (ti_sub _ _ _ Hti). set_solver.
  - rewrite Hopen. intros a b [Hab%elem_of_singleton|Hab]%elem_of_union.
    + subst k. destruct (wall_key_cases current n) as [Hkey|Hkey];
        rewrite Hkey in Hab; injection Hab as -> ->; set_solver.
    + apply (ti_ends _ _ _ Hti) in Hab. set_solver.
  - rewrite Hopen, !size_union, !size_singleton.
    + pose proof (ti_count _ _ _ Hti). lia.
    + set_solver.
    + unfold open_edges. set_solver.
  - intros c [->%elem_of_singleton|Hc]%elem_of_union.
    + eapply rtc_r.
      * eapply connected_mono; [|by apply (ti_conn _ _ _ Hti n)]. set_solver.
      * by apply open_edge_removed.
    + eapply connected_mono; [|by apply (ti_conn _ _ _ Hti)]. set_solver.
  - intros p Hcyc. destruct (decide (current ∈ p)) as [Hin|Hout].
    + destruct (cycle_neighbors _ p current Hcyc Hin) as (a & b & Hab & Ha & Hb).
      apply open_edge_remove in Ha as [Ha|[[-> ?]|[-> _]]].
      { by apply open_edge_sym, Hiso in Ha. }
      { done. }
      apply open_edge_remove in Hb as [Hb|[[_ ->]|[? _]]]; [|done..].
      by apply Hiso in Hb.
    + apply (ti_acyclic _ _ _ Hti p).
      destruct Hcyc as (Hlen & Hnd & Hwalk & h & z & Hh & Hz & Hzh).
      split_and!; try done.
      * eapply walk_impl; [|exact Hwalk].
        intros a b Ha Hb [?|[[-> _]|[_ ->]]]%open_edge_remove; done.
      * exists h, z. split_and!; try done.
        assert (h ∈ p) as Hhp.
        { rewrite head_lookup in Hh. by eapply list_elem_of_lookup_2. }
        assert (z ∈ p) as Hzp.
        { rewrite last_lookup in Hz. by eapply list_elem_of_lookup_2. }
        apply open_edge_remove in Hzh as [?|[[-> _]|[_ ->]]]; done.
Qed.

Lemma tree_inv_reach (st0 st : Builder) :
  frontier_inv width height st0 -> tree_inv width height st0 ->
  build_reach next width height st0 st -> tree_inv width height st.
Proof.
  intros Hf0 Ht0. induction 1 as [|st st' Hreach IH Hne Hstep]; [done|].
  eapply tree_inv_step; [|exact IH|exact Hne|exact Hstep].
  by eapply frontier_inv_reach.
Qed.

End BuilderTree.

(** ** The builder loop runs to completion *)

Section BuilderRun.
Context {G : Type} (next : G -> nat * G) (width height : Z).

Lemma build_loop_reach (fuel : nat) (st0 st st' : Builder) :
  build_reach next width height st0 st ->
  build_loop next fuel width height st = Some st' ->
  build_reach next width height st0 st' /\ b_frontier st' = ∅.
Proof.
  revert st. induction fuel as [|fuel IH]; intros st Hreach; simpl;
    case_decide as Hfr; intros Hloop; simplify_eq; auto.
  destruct (build_step next width height st) as [st1|] eqn:Hstep; [|done].
  simpl in Hloop. eapply IH; [|exact Hloop]. by eapply reach_pass.
Qed.

Lemma build_step_size (st st' : Builder) :
  frontier_inv width height st -> b_frontier st ≠ ∅ ->
  build_step next width height st = Some st' ->
  size (b_visited st') = S (size (b_visited st)).
Proof.
  intros Hfi Hne Hstep.
  destruct (build_step_frontier next width height st Hfi Hne)
    as (current & d & g & Hcur & _ & _ & _ & _ & Heq).
  rewrite Heq in Hstep. injection Hstep as <-. simpl.
  destruct (fi_frontier _ _ _ Hfi current Hcur) as (_ & Hcnv & _).
  rewrite size_union, size_singleton; [done|set_solver].
Qed.

Lemma visited_bound (st : Builder (G:=G)) :
  frontier_inv width height st -> b_frontier st ≠ ∅ ->
  (size (b_visited st) < size (grid width height))%nat.
Proof.
  intros Hfi Hne. apply subset_size.
  apply set_choose_L in Hne as [c Hc].
  destruct (fi_frontier _ _ _ Hfi c Hc) as (Hcb & Hcnv & _).
  split.
  - intros c' Hc'. by apply elem_of_grid, (fi_visited _ _ _ Hfi).
  - intros Hsub. apply Hcnv, Hsub. by apply elem_of_grid.
Qed.

Lemma build_loop_total (fuel : nat) (st : Builder) :
  frontier_inv width height st ->
  (size (grid width height) <= size (b_visited st) + fuel)%nat ->
  is_Some (build_loop next fuel width height st).
Proof.
  revert st. induction fuel as [|fuel IH]; intros st Hfi Hfuel; simpl;
    case_decide as Hfr; try done.
  - pose proof (visited_bound st Hfi Hfr). lia.
  - destruct (build_step_frontier next width height st Hfi Hfr)
      as (current & d & g & _ & _ & _ & _ & _ & Heq).
    pose proof (build_step_size st _ Hfi Hfr Heq) as Hsize.
    pose proof (frontier_inv_step next width height st _ Hfi Hfr Heq) as Hfi'.
    rewrite Heq. simpl. apply IH; [done|]. rewrite Hsize. lia.
Qed.

(** Once the frontier is empty the maze covers the grid. *)
Lemma visited_all (st : Builder (G:=G)) :
  frontier_inv width height st -> b_frontier st = ∅ ->
  forall c, in_bounds width height c -> c ∈ b_visited st.
Proof.
  intros Hfi Hfr c.
  remember (Z.to_nat (x c + y c)) as m eqn:Hm. revert c Hm.
  induction m as [m IH] using lt_wf_ind. intros c Hm Hc.
  unfold in_bounds in Hc.
  destruct (decide (x c = 0 /\ y c = 0)) as [[Hx Hy]|Hpos].
  - rewrite <- (cell_eta c), Hx, Hy. apply (fi_start _ _ _ Hfi).
  - set (c' := if decide (0 < x c) then mkCell (x c - 1) (y c)
               else mkCell (x c) (y c - 1)).
    set (d := if decide (0 < x c) then RIGHT else DOWN).
    assert (in_bounds width height c') as Hc'.
    { subst c'. unfold in_bounds. case_decide; simpl; lia. }
    assert (get_neighbor c' d = c) as Hcd.
    { subst c' d. apply cell_ext; rewrite ?get_neighbor_x, ?get_neighbor_y;
        case_decide; simpl; lia. }
    assert (c' ∈ b_visited st) as Hv'.
    { apply (IH (Z.to_nat (x c' + y c'))); [|done..].
      subst c' m. case_decide; simpl; lia. }
    destruct (fi_closed _ _ _ Hfi c' d Hv') as [Hin|Hin].
    + rewrite Hcd. unfold in_bounds. lia.
    + by rewrite Hcd in Hin.
    + rewrite Hfr in Hin. set_solver.
Qed.

Lemma visited_grid (st : Builder (G:=G)) :
  frontier_inv width height st -> b_frontier st = ∅ ->
  b_visited st = grid width height.
Proof.
  intros Hfi Hfr. apply set_eq. intros c. rewrite elem_of_grid. split.
  - apply (fi_visited _ _ _ Hfi).
  - by apply visited_all.
Qed.

(** The loop returns, in a state the passes lead to, with an empty
    frontier and the whole grid visited. *)
Lemma build_loop_returns (fuel : nat) (walls : gset (Cell * Cell)) (g : G) :
  1 <= width -> 1 <= height -> (Z.to_nat (width * height) <= fuel)%nat ->
  exists st,
    build_loop next fuel width height (build_init width height walls g) = Some st /\
    build_reach next width height (build_init width height walls g) st /\
    frontier_inv width height st /\
    b_frontier st = ∅ /\ b_visited st = grid width height.
Proof.
  intros Hw Hh Hfuel.
  pose proof (frontier_inv_init width height walls g Hw Hh) as Hfi0.
  destruct (build_loop_total fuel _ Hfi0) as [st Hst].
  { pose proof (size_grid width height). unfold build_init.
    cbn [b_visited]. rewrite size_singleton. lia. }
  destruct (build_loop_reach fuel _ _ st (reach_entry _ _ _ _) Hst) as [Hreach Hfr].
  pose proof (frontier_inv_reach next width height _ st Hfi0 Hreach) as Hfi.
  exists st. split_and!; try done. by apply visited_grid.
Qed.

End BuilderRun.

(** The removed walls are the open passages, each counted once. *)
Lemma elem_of_open_edges (width height : Z) (walls : gset (Cell * Cell)) (a b : Cell) :
  (a, b) ∈ open_edges width height walls <->
  (a, b) ∈ init_walls width height /\ open_edge width height walls a b.
Proof.
  unfold open_edges. rewrite elem_of_difference. split.
  - intros [Hinit Hout]. split; [done|].
    apply elem_of_init_walls in Hinit as [Ha Hd].
    assert (exists d, b = get_neighbor a d /\ wall_key a b = (a, b) /\
                      in_bounds width height b) as (d & -> & Hkey & Hb).
    { unfold in_bounds in *.
      destruct Hd as [[? ->]|[? ->]]; [exists RIGHT|exists DOWN];
        rewrite wall_key_neighbor, get_neighbor_x, get_neighbor_y; simpl;
        split_and!; try done; lia. }
    split_and!; [done|done|by exists d|].
    unfold is_wall_between. rewrite Hkey. by rewrite bool_decide_spec.
  - intros [Hinit Hedge]. split; [done|].
    apply open_edge_key in Hedge. unfold open_edges in Hedge.
    apply elem_of_difference in Hedge as [_ Hout].
    assert (wall_key a b = (a, b)) as Hkey.
    { apply elem_of_init_walls in Hinit as [_ [[_ ->]|[_ ->]]];
        by rewrite wall_key_neighbor. }
    by rewrite Hkey in Hout.
Qed.

(** ** The builder: spanning tree and frontier invariant *)

(** C2. When the frontier loop of [generate_maze] ends, on a fresh Wall Set
    of a grid with width, height >= 1 and for every random source, the
    number of walls removed is the number of visited cells minus one, which
    is width*height - 1; the open passages form no cycle, and every cell of
    the grid is reachable from (0,0) through open passages. *)
Theorem builder_spanning_tree {G : Type} (next : G -> nat * G) (g : G)
    (width height : Z) (fuel : nat) :
  1 <= width -> 1 <= height -> (Z.to_nat (width * height) <= fuel)%nat ->
  exists st,
    build_loop next fuel width height
      (build_init width height (init_walls width height) g) = Some st /\
    b_frontier st = ∅ /\
    Z.of_nat (size (open_edges width height (b_walls st)))
      = Z.of_nat (size (b_visited st)) - 1 /\
    Z.of_nat (size (open_edges width height (b_walls st))) = width * height - 1 /\
    acyclic (open_edge width height (b_walls st)) /\
    (forall c, in_bounds width height c ->
       connected width height (b_walls st) (mkCell 0 0) c).
Proof.
  intros Hw Hh Hfuel.
  destruct (build_loop_returns next width height fuel (init_walls width height) g Hw Hh Hfuel)
    as (st & Hloop & Hreach & Hfi & Hfr & Hall).
  assert (tree_inv width height st) as Hti.
  { eapply tree_inv_reach; [|apply tree_inv_init|exact Hreach].
    by apply frontier_inv_init. }
  pose proof (ti_count _ _ _ Hti) as Hcount.
  exists st. split_and!; try done.
  - lia.
  - rewrite Hall in Hcount. pose proof (size_grid width height). lia.
  - apply (ti_acyclic _ _ _ Hti).
  - intros c Hc. apply (ti_conn _ _ _ Hti). rewrite Hall. by apply elem_of_grid.
Qed.

Lemma builder_spanning_tree_witness :
  exists st,
    build_loop sample_next 6 3 2 (build_init 3 2 (init_walls 3 2) 0%nat) = Some st /\
    b_frontier st = ∅ /\
    Z.of_nat (size (open_edges 3 2 (b_walls st))) = Z.of_nat (size (b_visited st)) - 1 /\
    Z.of_nat (size (open_edges 3 2 (b_walls st))) = 3 * 2 - 1 /\
    acyclic (open_edge 3 2 (b_walls st)) /\
    (forall c, in_bounds 3 2 c -> connected 3 2 (b_walls st) (mkCell 0 0) c).
Proof. apply (builder_spanning_tree sample_next 0%nat 3 2 6); lia. Defined.

(** C3. In every state the builder loop passes through, each frontier cell
    has an in-bounds neighbour in [visited], so the list of visited
    neighbours collected for a drawn cell is not empty and the drawn cell is
    added to [visited]; and the loop ends with [visited] holding exactly the
    width*height cells of the grid.  This holds for width, height >= 1,
    every Wall Set and every random source. *)
Theorem builder_frontier_invariant {G : Type} (next : G -> nat * G) (g : G)
    (width height : Z) (walls : gset (Cell * Cell)) :
  1 <= width -> 1 <= height ->
  let st0 := build_init width height walls g in
  (forall st, build_reach next width height st0 st ->
     (forall c, c ∈ b_frontier st ->
        in_bounds width height c /\
        exists d, in_bounds width height (get_neighbor c d) /\
                  get_neighbor c d ∈ b_visited st) /\
     (forall c, c ∈ b_frontier st ->
        visited_neighbors width height (b_visited st) c ≠ []) /\
     (forall current g',
        choice next (elements (b_frontier st)) (b_rng st) = Some (current, g') ->
        exists st', build_step next width height st = Some st' /\
                    current ∈ b_visited st')) /\
  (forall fuel, (Z.to_nat (width * height) <= fuel)%nat ->
     exists st, build_loop next fuel width height st0 = Some st /\
       b_frontier st = ∅ /\
       (forall c, c ∈ b_visited st <-> in_bounds width height c) /\
       Z.of_nat (size (b_visited st)) = width * height).
Proof.
  intros Hw Hh st0. split.
  - intros st Hreach.
    pose proof (frontier_inv_reach next width height st0 st
                  (frontier_inv_init width height walls g Hw Hh) Hreach) as Hfi.
    assert (forall c, c ∈ b_frontier st ->
      in_bounds width height c /\
      exists d, in_bounds width height (get_neighbor c d) /\
                get_neighbor c d ∈ b_visited st) as Hnb.
    { intros c Hc. destruct (fi_frontier _ _ _ Hfi c Hc) as (Hb & _ & d & Hd).
      split; [done|]. exists d. split; [|done]. by apply (fi_visited _ _ _ Hfi). }
    split_and!; [done| |].
    + intros c Hc Hnil. destruct (Hnb c Hc) as (_ & d & Hdb & Hdv).
      assert (get_neighbor c d ∈ visited_neighbors width height (b_visited st) c) as Hin.
      { apply elem_of_visited_neighbors. eauto. }
      rewrite Hnil in Hin. by apply not_elem_of_nil in Hin.
    + intros current g' Hch.
      assert (b_frontier st ≠ ∅) as Hne.
      { apply (choice_inv next) in Hch as [Hin _]. apply elem_of_elements in Hin. set_solver. }
      destruct (build_step_frontier next width height st Hfi Hne)
        as (cur & d & g2 & _ & _ & _ & Hch' & _ & Heq).
      rewrite Hch in Hch'. injection Hch' as <- _.
      eexists. split; [exact Heq|]. simpl. set_solver.
  - intros fuel Hfuel.
    destruct (build_loop_returns next width height fuel walls g Hw Hh Hfuel)
      as (st & Hloop & _ & _ & Hfr & Hall).
    exists st. split_and!; try done.
    + intros c. rewrite Hall. apply elem_of_grid.
    + rewrite Hall. apply size_grid; lia.
Qed.

Lemma builder_frontier_invariant_witness :
  exists st, build_loop sample_next 4 2 2 (build_init 2 2 ∅ 0%nat) = Some st /\
    b_frontier st = ∅ /\
    (forall c, c ∈ b_visited st <-> in_bounds 2 2 c) /\
    Z.of_nat (size (b_visited st)) = 2 * 2.
Proof.
  apply (proj2 (builder_frontier_invariant sample_next 0%nat 2 2 ∅ ltac:(lia) ltac:(lia)) 4%nat).
  simpl. lia.
Defined.

(** ** The breadth-first search finds every reachable goal *)

Section Search.
Context (width height : Z) (walls : gset (Cell * Cell)).

Lemma size_grid_difference_insert (v : gset Cell) (n : Cell) :
  in_bounds width height n -> n ∉ v ->
  size (grid width height ∖ v) = S (size (grid width height ∖ ({[ n ]} ∪ v))).
Proof.
  intros Hn Hv.
  replace (grid width height ∖ v)
    with ({[ n ]} ∪ grid width height ∖ ({[ n ]} ∪ v)).
  - rewrite size_union, size_singleton; [done|set_solver].
  - apply set_eq. intros c. apply elem_of_grid in Hn.
    destruct (decide (c = n)); set_solver.
Qed.

Lemma bfs_visit_eq (current : Cell) (v : gset Cell) (q : list Cell) (d : Direction) :
  bfs_visit width height walls current (v, q) d =
  let n := get_neighbor current d in
  if decide (in_bounds width height n /\ n ∉ v /\ ¬ is_wall_between walls current n)
  then ({[ n ]} ∪ v, q ++ [n]) else (v, q).
Proof. unfold bfs_visit. simpl. repeat case_decide; try done; tauto. Qed.

Lemma bfs_fold_spec (current : Cell) (l : list Direction)
    (v v' : gset Cell) (q q' : list Cell) :
  foldl (bfs_visit width height walls current) (v, q) l = (v', q') ->
  (size (grid width height ∖ v') + length q'
     = size (grid width height ∖ v) + length q)%nat /\
  (forall c, c ∈ v' <->
     c ∈ v \/ (exists d, d ∈ l /\ c = get_neighbor current d) /\
              in_bounds width height c /\ ¬ is_wall_between walls current c) /\
  (forall c, c ∈ q' <-> c ∈ q \/ (c ∈ v' /\ c ∉ v)).
Proof.
  revert v q. induction l as [|d l IH]; intros v q; cbn [foldl].
  - intros [= <- <-]. split_and!; [done|set_solver..].
  - rewrite bfs_visit_eq. cbv zeta. set (n := get_neighbor current d).
    destruct (decide (in_bounds width height n /\ n ∉ v /\
                      ¬ is_wall_between walls current n)) as [Hcase|Hcase].
    + destruct Hcase as (Hb & Hv & Hw).
      intros (Hm & Hv' & Hq')%IH. split_and!.
      * rewrite Hm, length_app, (size_grid_difference_insert v n) by done. simpl. lia.
      * intros c. rewrite Hv'. set_unfold. naive_solver.
      * intros c. rewrite Hq'. specialize (Hv' n).
        destruct (decide (c = n)); set_unfold; naive_solver.
    + intros (Hm & Hv' & Hq')%IH. split_and!; [done| |done].
      intros c. rewrite Hv'. split; [set_unfold; naive_solver|].
      intros [?|((d' & [->|Hd']%elem_of_cons & ->) & Hcb & Hcw)]; [by left| |right; eauto].
      left. fold n in Hcb, Hcw |- *. destruct (decide (n ∈ v)); tauto.
Qed.

Lemma bfs_closed (start end_ : Cell) (v : gset Cell) (c : Cell) :
  bfs_inv width height walls start end_ v [] ->
  connected width height walls start c -> c ∈ v.
Proof.
  intros Hinv. revert c. apply rtc_ind_r.
  - apply (bi_start _ _ _ _ _ _ _ Hinv).
  - intros a b _ Hab IH.
    eapply (bi_done _ _ _ _ _ _ _ Hinv); [exact IH|apply not_elem_of_nil|done].
Qed.

Lemma bfs_inv_expand (start end_ current : Cell) (v v' : gset Cell) (q q' : list Cell) :
  bfs_inv width height walls start end_ v (current :: q) ->
  current ≠ end_ ->
  bfs_expand width height walls current v q = (v', q') ->
  bfs_inv width height walls start end_ v' q'.
Proof.
  intros Hinv Hne (_ & Hv' & Hq')%bfs_fold_spec.
  assert (forall c, c ∈ v -> c ∈ v') as Hmono by (intros c; rewrite Hv'; auto).
  split.
  - intros c [Hc|[Hc _]]%Hq'; [|done].
    apply Hmono, (bi_queue _ _ _ _ _ _ _ Hinv). by right.
  - intros c [Hc|(_ & Hc & _)]%Hv'; [|done].
    by apply (bi_grid _ _ _ _ _ _ _ Hinv).
  - apply Hmono, (bi_start _ _ _ _ _ _ _ Hinv).
  - intros c Hc Hcq.
    assert (c ∈ v) as Hcv.
    { destruct (decide (c ∈ v)) as [|Hout]; [done|]. exfalso. apply Hcq, Hq'. auto. }
    assert (c ∉ q) as Hcq0 by (intros Hin; apply Hcq, Hq'; auto).
    destruct (decide (c = current)) as [->|Hcc].
    + split; [done|]. intros b (_ & Hb & (d & ->) & Hw). apply Hv'. right.
      split; [|done]. exists d. split; [apply elem_of_directions|done].
    + destruct (bi_done _ _ _ _ _ _ _ Hinv c Hcv) as [? Hnb]; [set_solver|].
      split; [done|]. intros b Hb. by apply Hmono, Hnb.
Qed.

Lemma bfs_loop_finds (start end_ : Cell) (fuel : nat) (v : gset Cell) (q : list Cell) :
  connected width height walls start end_ ->
  bfs_inv width height walls start end_ v q ->
  (size (grid width height ∖ v) + length q <= fuel)%nat ->
  bfs_loop fuel width height walls end_ v q = Some true.
Proof.
  intros Hconn. revert v q.
  induction fuel as [|fuel IH]; intros v q Hinv Hm;
    destruct q as [|current q]; simpl.
  1,3: pose proof (bfs_closed start end_ v end_ Hinv Hconn) as Hend;
       by destruct (bi_done _ _ _ _ _ _ _ Hinv end_ Hend (not_elem_of_nil _)).
  - case_decide; [done|]. simpl in Hm. lia.
  - case_decide as Hcur; [done|].
    destruct (bfs_expand width height walls current v q) as [v' q'] eqn:Hexp.
    apply IH; [by eapply bfs_inv_expand|].
    apply bfs_fold_spec in Hexp as (Hm' & _). simpl in Hm. lia.
Qed.

(** [_has_path] answers [True] whenever the goal is reachable. *)
Lemma has_path_complete (start end_ : Cell) (fuel : nat) :
  in_bounds width height start ->
  connected width height walls start end_ ->
  (size (grid width height) <= fuel)%nat ->
  _has_path fuel width height walls start end_ = Some true.
Proof.
  intros Hstart Hconn Hfuel. unfold _has_path.
  apply (bfs_loop_finds start); [done| |].
  - split.
    + intros c ->%list_elem_of_singleton. set_solver.
    + by intros c ->%elem_of_singleton.
    + set_solver.
    + intros c ->%elem_of_singleton Hc. exfalso. apply Hc. set_solver.
  - pose proof (size_grid_difference_insert ∅ start Hstart (not_elem_of_empty _)) as Hsz.
    rewrite difference_empty_L, union_empty_r_L in Hsz.
    simpl. lia.
Qed.

End Search.

(** ** Generation connects start and goal *)

(** C1. For width, height >= 1 and every random source, [generate_maze] on
    a fresh generator returns a Wall Set in which the goal cell
    (width-1, height-1) is reachable from (0,0) through open passages, and
    the breadth-first search of [_has_path] on that Wall Set answers [True]. *)
Theorem generate_maze_connects {G : Type} (next : G -> nat * G) (g : G)
    (width height : Z) (fuel : nat) :
  1 <= width -> 1 <= height -> (Z.to_nat (width * height) <= fuel)%nat ->
  exists walls g',
    generate next fuel width height g = Some (walls, g') /\
    connected width height walls (mkCell 0 0) (mkCell (width - 1) (height - 1)) /\
    forall fuel', (Z.to_nat (width * height) <= fuel')%nat ->
      _has_path fuel' width height walls (mkCell 0 0) (mkCell (width - 1) (height - 1))
        = Some true.
Proof.
  intros Hw Hh Hfuel.
  destruct (build_loop_returns next width height fuel (init_walls width height) g Hw Hh Hfuel)
    as (st & Hloop & Hreach & Hfi & Hfr & Hall).
  assert (tree_inv width height st) as Hti.
  { eapply tree_inv_reach; [|apply tree_inv_init|exact Hreach].
    by apply frontier_inv_init. }
  assert (in_bounds width height (mkCell 0 0)) as Hstart.
  { unfold in_bounds. simpl. lia. }
  assert (connected width height (b_walls st) (mkCell 0 0)
            (mkCell (width - 1) (height - 1))) as Hconn.
  { apply (ti_conn _ _ _ Hti). rewrite Hall. apply elem_of_grid.
    unfold in_bounds. simpl. lia. }
  assert (forall fuel', (Z.to_nat (width * height) <= fuel')%nat ->
            _has_path fuel' width height (b_walls st) (mkCell 0 0)
              (mkCell (width - 1) (height - 1)) = Some true) as Hbfs.
  { intros fuel' Hfuel'. apply has_path_complete; [done..|].
    pose proof (size_grid width height). lia. }
  exists (b_walls st), (b_rng st). split_and!; [|done..].
  unfold generate, generate_maze. rewrite Hloop. simpl.
  unfold _ensure_path_exists. rewrite (Hbfs fuel Hfuel). done.
Qed.

Lemma generate_maze_connects_witness :
  exists walls g',
    generate sample_next 9 3 3 0%nat = Some (walls, g') /\
    connected 3 3 walls (mkCell 0 0) (mkCell (3 - 1) (3 - 1)) /\
    forall fuel', (Z.to_nat (3 * 3) <= fuel')%nat ->
      _has_path fuel' 3 3 walls (mkCell 0 0) (mkCell (3 - 1) (3 - 1)) = Some true.
Proof. apply (generate_maze_connects sample_next 0%nat 3 3 9); lia. Defined.

(** ** The repair walk terminates *)

Section Repair.
Context (width height : Z).

Lemma dist_nonneg (c e : Cell) : 0 <= dist c e.
Proof. unfold dist. lia. Qed.

Lemma dist_bound (c e : Cell) :
  in_bounds width height c -> in_bounds width height e ->
  dist c e <= width + height - 2.
Proof. unfold in_bounds, dist. lia. Qed.

(** The move toward the goal stays in the grid and comes one step closer. *)
Lemma toward_closer (c e : Cell) :
  in_bounds width height c -> in_bounds width height e -> c ≠ e ->
  in_bounds width height (toward c e) /\ dist (toward c e) e = dist c e - 1.
Proof.
  intros Hc He Hne.
  assert (x c ≠ x e \/ y c ≠ y e) as Hxy.
  { destruct (decide (x c = x e)); [|by left]. right.
    intros Hy. by apply Hne, cell_ext. }
  unfold toward, in_bounds, dist in *.
  repeat case_decide; rewrite get_neighbor_x, get_neighbor_y; simpl; lia.
Qed.

(** The scan either keeps [next_cell] or finds a fresh cell of the grid. *)
Lemma other_direction_cases (current : Cell) (visited : gset Cell) (next_cell : Cell) :
  let n := other_direction width height current visited next_cell in
  n = next_cell \/ (in_bounds width height n /\ n ∉ visited).
Proof.
  unfold other_direction.
  destruct (head _) as [cand|] eqn:Hhead; simpl; [right|by left].
  apply head_Some_elem_of, list_elem_of_filter in Hhead as [? _]. done.
Qed.

(** Every way out of the loop is one of the two exits. *)
Lemma create_loop_exit (fuel : nat) (walls : gset (Cell * Cell)) (end_ current : Cell)
    (visited : gset Cell) (path : list Cell) (w : Walk) :
  create_loop fuel width height walls end_ current visited path = Some w ->
  (w_exit w = AtEnd /\ w_current w = end_) \/ (w_exit w = PathEmpty /\ w_path w = []).
Proof.
  revert walls current visited path.
  induction fuel as [|fuel IH]; intros walls current visited path; simpl;
    case_decide as Hcur; try (intros [= <-]; by left); try done.
  case_decide; [by apply IH|].
  destruct path as [|c0 path]; [done|].
  destruct (last (removelast (c0 :: path))) as [back|] eqn:Hlast; [by apply IH|].
  intros [= <-]. right. split; [done|]. simpl. by apply last_None.
Qed.

Lemma create_loop_reaches (fuel : nat) (walls : gset (Cell * Cell)) (end_ current : Cell)
    (visited : gset Cell) (path : list Cell) :
  in_bounds width height end_ -> in_bounds width height current ->
  Z.of_nat (size (grid width height ∖ visited)) * (width + height) + dist current end_
    <= Z.of_nat fuel ->
  exists w, create_loop fuel width height walls end_ current visited path = Some w /\
            w_exit w = AtEnd /\ w_current w = end_.
Proof.
  intros Hend. revert walls current visited path.
  induction fuel as [|fuel IH]; intros walls current visited path Hcur Hm; simpl;
    case_decide as Hne; try (eexists; split; [done|]; by split).
  - pose proof (toward_closer current end_ Hcur Hend Hne) as [_ Hd].
    pose proof (dist_nonneg (toward current end_) end_).
    pose proof (dist_bound current end_ Hcur Hend). nia.
  - destruct (toward_closer current end_ Hcur Hend Hne) as [Htb Htd].
    set (next_cell :=
           if decide (¬ in_bounds width height (toward current end_)
                      \/ toward current end_ ∈ visited)
           then other_direction width height current visited (toward current end_)
           else toward current end_).
    assert (in_bounds width height next_cell /\
            (next_cell ∉ visited \/
             (next_cell ∈ visited /\ next_cell = toward current end_))) as [Hnb Hcase].
    { subst next_cell. case_decide as Hc.
      - destruct (other_direction_cases current visited (toward current end_))
          as [->|[? ?]]; [|by auto].
        split; [done|]. destruct Hc as [?|?]; [done|]. by right.
      - split; [done|]. left. tauto. }
    rewrite decide_True by done.
    apply IH; [done|].
    pose proof (dist_nonneg next_cell end_).
    pose proof (dist_bound next_cell end_ Hnb Hend).
    pose proof (dist_bound current end_ Hcur Hend).
    destruct Hcase as [Hfresh|[Hold Heq]].
    + rewrite (size_grid_difference_insert width height visited next_cell) in Hm by done.
      rewrite Nat2Z.inj_succ, Z.mul_succ_l in Hm.
      pose proof (dist_nonneg current end_). lia.
    + replace ({[next_cell]} ∪ visited) with visited by set_solver.
      rewrite Heq, Htd. lia.
Qed.

End Repair.

(** C9. For width, height >= 1, start and end cells in the grid and every
    Wall Set, [_create_path] returns, and it leaves its loop in one of two
    ways only: with the current cell equal to the goal, or with the path
    emptied by backtracking. *)
Theorem create_path_terminates (width height : Z) (walls : gset (Cell * Cell))
    (start end_ : Cell) (fuel : nat) :
  1 <= width -> 1 <= height ->
  in_bounds width height start -> in_bounds width height end_ ->
  (Z.to_nat (width * height * (width + height)) <= fuel)%nat ->
  exists w, _create_path fuel width height walls start end_ = Some w /\
    ((w_exit w = AtEnd /\ w_current w = end_) \/
     (w_exit w = PathEmpty /\ w_path w = [])).
Proof.
  intros Hw Hh Hstart Hend Hfuel. unfold _create_path.
  destruct (create_loop_reaches width height fuel walls end_ start {[start]} [start] Hend Hstart)
    as (w & Hrun & _).
  - pose proof (size_grid_difference_insert width height ∅ start Hstart (not_elem_of_empty _)) as Hsz.
    rewrite difference_empty_L, union_empty_r_L in Hsz.
    pose proof (size_grid width height).
    pose proof (dist_bound width height start end_ Hstart Hend). nia.
  - exists w. split; [done|]. by eapply create_loop_exit.
Qed.

Lemma create_path_terminates_witness :
  exists w, _create_path 16 2 2 (init_walls 2 2) (mkCell 0 0) (mkCell 1 1) = Some w /\
    ((w_exit w = AtEnd /\ w_current w = mkCell 1 1) \/
     (w_exit w = PathEmpty /\ w_path w = [])).
Proof.
  apply (create_path_terminates 2 2 (init_walls 2 2) (mkCell 0 0) (mkCell 1 1) 16);
    unfold in_bounds; simpl; lia.
Defined.

(** * Further properties of the generator *)

(** ** Removing a wall and querying it *)

Lemma remove_wall_flip (walls : gset (Cell * Cell)) (a : Cell) (d : Direction) :
  _remove_wall walls (get_neighbor a d) a = _remove_wall walls a (get_neighbor a d).
Proof.
  rewrite <- (get_neighbor_opposite a d) at 2.
  rewrite !remove_wall_neighbor, get_neighbor_opposite.
  by rewrite (wall_key_sym (get_neighbor a d) a).
Qed.

(** X7. For a cell [a] and its neighbour [b] in any direction, and every
    Wall Set: after [_remove_wall a b] the query [is_wall_between] answers
    [False] for the pair in both orders and is unchanged for every pair with
    another key; removing in the other order, or a second time, gives the
    same Wall Set; and removing a wall that is not there changes nothing. *)
Theorem remove_wall_then_query (walls : gset (Cell * Cell)) (a : Cell) (d : Direction) :
  let b := get_neighbor a d in
  is_wall_between (_remove_wall walls a b) a b = false /\
  is_wall_between (_remove_wall walls a b) b a = false /\
  (forall c e, wall_key c e ≠ wall_key a b ->
     is_wall_between (_remove_wall walls a b) c e = is_wall_between walls c e) /\
  _remove_wall walls b a = _remove_wall walls a b /\
  _remove_wall (_remove_wall walls a b) a b = _remove_wall walls a b /\
  (is_wall_between walls a b = false -> _remove_wall walls a b = walls).
Proof.
  intros b. subst b. rewrite remove_wall_flip, !remove_wall_neighbor.
  unfold is_wall_between. rewrite (wall_key_sym (get_neighbor a d) a).
  split_and!.
  - apply bool_decide_eq_false. set_solver.
  - apply bool_decide_eq_false. set_solver.
  - intros c e Hne. apply bool_decide_ext. set_solver.
  - done.
  - set_solver.
  - intros Hout%bool_decide_eq_false. set_solver.
Qed.

(** ** The search decides reachability *)

Section SearchExact.
Context (width height : Z) (walls : gset (Cell * Cell)).

Lemma bfs_loop_total (end_ : Cell) (fuel : nat) (v : gset Cell) (q : list Cell) :
  (size (grid width height ∖ v) + length q <= fuel)%nat ->
  is_Some (bfs_loop fuel width height walls end_ v q).
Proof.
  revert v q. induction fuel as [|fuel IH]; intros v q Hm;
    destruct q as [|current q]; simpl; try done.
  - case_decide; [done|]. simpl in Hm. lia.
  - case_decide; [done|].
    destruct (bfs_expand width height walls current v q) as [v' q'] eqn:Hexp.
    apply IH. apply bfs_fold_spec in Hexp as (Hm' & _). simpl in Hm. lia.
Qed.

Lemma bfs_reached_expand (start current : Cell) (v v' : gset Cell) (q q' : list Cell) :
  bfs_reached width height walls start v (current :: q) ->
  bfs_expand width height walls current v q = (v', q') ->
  bfs_reached width height walls start v' q'.
Proof.
  intros [Hq Hv] (_ & Hv' & Hq')%bfs_fold_spec.
  assert (current ∈ v) as Hcur by (apply Hq; left).
  destruct (Hv current Hcur) as [Hcb Hcc].
  split.
  - intros c [Hc|[Hc _]]%Hq'; [|done]. apply Hv'. left. apply Hq. by right.
  - intros c [Hc|((d & _ & ->) & Hb & Hw)]%Hv'; [by apply Hv|].
    split; [done|]. eapply rtc_r; [exact Hcc|].
    split_and!; try done. by exists d.
Qed.

Lemma bfs_loop_sound (start end_ : Cell) (fuel : nat) (v : gset Cell) (q : list Cell) :
  bfs_reached width height walls start v q ->
  bfs_loop fuel width height walls end_ v q = Some true ->
  connected width height walls start end_.
Proof.
  revert v q. induction fuel as [|fuel IH]; intros v q Hinv;
    destruct q as [|current q]; simpl; try done.
  - case_decide as Hcur; [|done]. intros _. subst end_.
    destruct Hinv as [Hq Hv]. apply Hv, Hq. left.
  - case_decide as Hcur.
    + intros _. subst end_. destruct Hinv as [Hq Hv]. apply Hv, Hq. left.
    + destruct (bfs_expand width height walls current v q) as [v' q'] eqn:Hexp.
      apply IH. by eapply bfs_reached_expand.
Qed.

End SearchExact.

(** X1. For a start cell in the grid, every goal cell, every Wall Set and
    fuel of at least width*height, [_has_path] returns, and its answer is
    [True] exactly when the goal can be reached from the start through open
    passages. *)
Theorem has_path_decides (width height : Z) (walls : gset (Cell * Cell))
    (start end_ : Cell) (fuel : nat) :
  in_bounds width height start ->
  (Z.to_nat (width * height) <= fuel)%nat ->
  exists found, _has_path fuel width height walls start end_ = Some found /\
    (found = true <-> connected width height walls start end_).
Proof.
  intros Hstart Hfuel.
  assert (size (grid width height) <= fuel)%nat as Hsize.
  { pose proof (size_grid width height). unfold in_bounds in Hstart. lia. }
  destruct (bfs_loop_total width height walls end_ fuel {[start]} [start]) as [found Hrun].
  { pose proof (size_grid_difference_insert width height ∅ start Hstart
                  (not_elem_of_empty _)) as Hsz.
    rewrite difference_empty_L, union_empty_r_L in Hsz. simpl. lia. }
  exists found. split; [exact Hrun|]. split.
  - intros ->. eapply bfs_loop_sound; [|exact Hrun]. split.
    + intros c ->%list_elem_of_singleton. set_solver.
    + intros c ->%elem_of_singleton. split; [done|apply rtc_refl].
  - intros Hconn.
    pose proof (has_path_complete width height walls start end_ fuel Hstart Hconn Hsize) as Hyes.
    unfold _has_path in Hyes. congruence.
Qed.

Lemma has_path_decides_witness :
  exists found, _has_path 4 2 2 (init_walls 2 2) (mkCell 0 0) (mkCell 1 1) = Some found /\
    (found = true <-> connected 2 2 (init_walls 2 2) (mkCell 0 0) (mkCell 1 1)).
Proof.
  apply (has_path_decides 2 2 (init_walls 2 2) (mkCell 0 0) (mkCell 1 1) 4).
  - unfold in_bounds. simpl. lia.
  - simpl. lia.
Defined.

(** ** The repair walk carves a way to the goal *)

Section RepairResult.
Context (width height : Z).

Lemma toward_neighbor (c e : Cell) : exists d, toward c e = get_neighbor c d.
Proof. unfold toward. repeat case_decide; eauto. Qed.

Lemma other_direction_neighbor (current : Cell) (visited : gset Cell) (next_cell : Cell) :
  (exists d, next_cell = get_neighbor current d) ->
  exists d, other_direction width height current visited next_cell = get_neighbor current d.
Proof.
  intros Hnext. unfold other_direction.
  destruct (head _) as [cand|] eqn:Hhead; simpl; [|done].
  apply head_Some_elem_of, list_elem_of_filter in Hhead as [_ Hin].
  apply list_elem_of_fmap in Hin as (d & -> & _). by exists d.
Qed.

(** The cell the walk steps to, from a cell of the grid other than the goal:
    a neighbour of the current cell, inside the grid. *)
Lemma repair_next_cell (end_ current : Cell) (visited : gset Cell) :
  in_bounds width height end_ -> in_bounds width height current -> current ≠ end_ ->
  let next_cell :=
    if decide (¬ in_bounds width height (toward current end_)
               \/ toward current end_ ∈ visited)
    then other_direction width height current visited (toward current end_)
    else toward current end_ in
  in_bounds width height next_cell /\ exists d, next_cell = get_neighbor current d.
Proof.
  intros Hend Hcur Hne next_cell.
  destruct (toward_closer width height current end_ Hcur Hend Hne) as [Htb _].
  subst next_cell. case_decide as Hc.
  - split; [|apply other_direction_neighbor, toward_neighbor].
    destruct (other_direction_cases width height current visited (toward current end_))
      as [->|[? _]]; done.
  - split; [done|apply toward_neighbor].
Qed.

Lemma create_loop_connects (fuel : nat) (walls : gset (Cell * Cell))
    (start end_ current : Cell) (visited : gset Cell) (path : list Cell) (w : Walk) :
  in_bounds width height end_ -> in_bounds width height current ->
  connected width height walls start current ->
  create_loop fuel width height walls end_ current visited path = Some w ->
  w_exit w = AtEnd /\ w_current w = end_ /\ w_walls w ⊆ walls /\
  connected width height (w_walls w) start end_.
Proof.
  intros Hend. revert walls current visited path.
  induction fuel as [|fuel IH]; intros walls current visited path Hcur Hconn; simpl;
    case_decide as Hne; try done;
    try (intros [= <-]; subst current; by split_and!).
  destruct (repair_next_cell end_ current visited Hend Hcur Hne) as [Hnb [d Hd]].
  rewrite decide_True by done.
  rewrite Hd in *. rewrite remove_wall_neighbor.
  intros (Hexit & Hat & Hsub & Hway)%IH; [|done|].
  - split_and!; [done..| |done]. set_solver.
  - eapply rtc_r.
    + eapply connected_mono; [|exact Hconn]. set_solver.
    + by apply open_edge_sym, open_edge_removed.
Qed.

End RepairResult.

(** X2. For start and end cells in the grid, every Wall Set and fuel of at
    least W*H*(W+H), [_create_path] returns with its current cell at the
    goal, never by emptying the path; it only removes walls, and in the
    Wall Set it leaves the goal is reachable from the start. *)
Theorem create_path_connects (width height : Z) (walls : gset (Cell * Cell))
    (start end_ : Cell) (fuel : nat) :
  in_bounds width height start -> in_bounds width height end_ ->
  (Z.to_nat (width * height * (width + height)) <= fuel)%nat ->
  exists w, _create_path fuel width height walls start end_ = Some w /\
    w_exit w = AtEnd /\ w_current w = end_ /\
    w_walls w ⊆ walls /\
    connected width height (w_walls w) start end_.
Proof.
  intros Hstart Hend Hfuel. unfold _create_path.
  destruct (create_loop_reaches width height fuel walls end_ start {[start]} [start] Hend Hstart)
    as (w & Hrun & _).
  - pose proof (size_grid_difference_insert width height ∅ start Hstart (not_elem_of_empty _)) as Hsz.
    rewrite difference_empty_L, union_empty_r_L in Hsz.
    pose proof (size_grid width height).
    pose proof (dist_bound width height start end_ Hstart Hend).
    unfold in_bounds in Hstart. nia.
  - exists w. split; [done|].
    apply (create_loop_connects width height fuel walls start end_ start {[start]} [start] w
             Hend Hstart (rtc_refl _ _) Hrun).
Qed.

Lemma create_path_connects_witness :
  exists w, _create_path 54 3 3 (init_walls 3 3) (mkCell 2 2) (mkCell 0 1) = Some w /\
    w_exit w = AtEnd /\ w_current w = mkCell 0 1 /\
    w_walls w ⊆ init_walls 3 3 /\
    connected 3 3 (w_walls w) (mkCell 2 2) (mkCell 0 1).
Proof.
  apply (create_path_connects 3 3 (init_walls 3 3) (mkCell 2 2) (mkCell 0 1) 54);
    unfold in_bounds; simpl; lia.
Defined.

(** X3. For start and end cells in the grid, every Wall Set and fuel of at
    least W*H*(W+H), [_ensure_path_exists] returns a Wall Set that is a
    subset of the one it was given and in which the goal is reachable from
    the start; when the goal was reachable already the Wall Set is returned
    unchanged. *)
Theorem ensure_path_exists_connects (width height : Z) (walls : gset (Cell * Cell))
    (start end_ : Cell) (fuel : nat) :
  in_bounds width height start -> in_bounds width height end_ ->
  (Z.to_nat (width * height * (width + height)) <= fuel)%nat ->
  exists walls', _ensure_path_exists fuel width height walls start end_ = Some walls' /\
    walls' ⊆ walls /\
    connected width height walls' start end_ /\
    (connected width height walls start end_ -> walls' = walls).
Proof.
  intros Hstart Hend Hfuel.
  assert (size (grid width height) <= fuel)%nat as Hsize.
  { pose proof (size_grid width height). unfold in_bounds in Hstart. nia. }
  assert (bfs_reached width height walls start {[start]} [start]) as Hinit.
  { split.
    - intros c ->%list_elem_of_singleton. set_solver.
    - intros c ->%elem_of_singleton. split; [done|apply rtc_refl]. }
  unfold _ensure_path_exists.
  destruct (_has_path fuel width height walls start end_) as [[]|] eqn:Hsearch; simpl.
  - exists walls. split_and!; try done.
    by eapply bfs_loop_sound.
  - destruct (create_loop_reaches width height fuel walls end_ start {[start]} [start] Hend Hstart)
      as (w & Hrun & _).
    { pose proof (size_grid_difference_insert width height ∅ start Hstart (not_elem_of_empty _)) as Hsz.
      rewrite difference_empty_L, union_empty_r_L in Hsz.
      pose proof (size_grid width height).
      pose proof (dist_bound width height start end_ Hstart Hend).
      unfold in_bounds in Hstart. nia. }
    destruct (create_loop_connects width height fuel walls start end_ start _ _ w
                Hend Hstart (rtc_refl _ _) Hrun) as (_ & _ & Hsub & Hway).
    exists (w_walls w). unfold _create_path. rewrite Hrun. simpl.
    split_and!; try done.
    intros Hconn.
    pose proof (has_path_complete width height walls start end_ fuel Hstart Hconn Hsize).
    congruence.
  - exfalso.
    destruct (bfs_loop_total width height walls end_ fuel {[start]} [start]) as [found Hrun].
    + pose proof (size_grid_difference_insert width height ∅ start Hstart
                    (not_elem_of_empty _)) as Hsz.
      rewrite difference_empty_L, union_empty_r_L in Hsz. simpl. lia.
    + unfold _has_path in Hsearch. congruence.
Qed.

Lemma ensure_path_exists_connects_witness :
  exists walls', _ensure_path_exists 16 2 2 (init_walls 2 2) (mkCell 0 0) (mkCell 1 1)
                   = Some walls' /\
    walls' ⊆ init_walls 2 2 /\
    connected 2 2 walls' (mkCell 0 0) (mkCell 1 1) /\
    (connected 2 2 (init_walls 2 2) (mkCell 0 0) (mkCell 1 1) -> walls' = init_walls 2 2).
Proof.
  apply (ensure_path_exists_connects 2 2 (init_walls 2 2) (mkCell 0 0) (mkCell 1 1) 16);
    unfold in_bounds; simpl; lia.
Defined.

(** ** The finished maze *)

Lemma connected_sym (width height : Z) (walls : gset (Cell * Cell)) (a b : Cell) :
  connected width height walls a b -> connected width height walls b a.
Proof.
  induction 1 as [|a c b Hac _ IH]; [apply rtc_refl|].
  eapply rtc_r; [exact IH|]. by apply open_edge_sym.
Qed.

Section Finished.
Context {G : Type} (next : G -> nat * G) (width height : Z).

Lemma build_step_rng (st st' : Builder) :
  frontier_inv width height st -> b_frontier st ≠ ∅ ->
  build_step next width height st = Some st' ->
  b_rng st' = (next (next (b_rng st)).2).2.
Proof.
  intros Hfi Hne. unfold build_step.
  destruct (choice next (elements (b_frontier st)) (b_rng st)) as [[current g1]|] eqn:Hch;
    [|done]. simpl.
  apply choice_inv in Hch as [Hcur ->]. apply elem_of_elements in Hcur.
  destruct (fi_frontier _ _ _ Hfi current Hcur) as (_ & _ & d & Hd).
  assert (get_neighbor current d ∈ visited_neighbors width height (b_visited st) current) as Hin.
  { apply elem_of_visited_neighbors. split; [by exists d|].
    split; [by apply (fi_visited _ _ _ Hfi)|done]. }
  destruct (visited_neighbors width height (b_visited st) current) as [|n0 ns];
    [by apply not_elem_of_nil in Hin|].
  destruct (choice next (n0 :: ns) _) as [[n g2]|] eqn:Hch2; [|done]. simpl.
  apply choice_inv in Hch2 as [_ ->]. by intros [= <-].
Qed.

(** Two draws are made for each cell that joins the maze. *)
Lemma build_reach_rng (st0 st : Builder) :
  frontier_inv width height st0 ->
  build_reach next width height st0 st ->
  (size (b_visited st0) <= size (b_visited st))%nat /\
  b_rng st = advance next (2 * (size (b_visited st) - size (b_visited st0))) (b_rng st0).
Proof.
  intros Hfi0. induction 1 as [|st st' Hreach [Hle IH] Hne Hstep].
  - split; [done|]. by rewrite Nat.sub_diag.
  - pose proof (frontier_inv_reach next width height st0 st Hfi0 Hreach) as Hfi.
    rewrite (build_step_size next width height st st' Hfi Hne Hstep).
    rewrite (build_step_rng st st' Hfi Hne Hstep), IH.
    split; [lia|].
    replace (2 * (S (size (b_visited st)) - size (b_visited st0)))%nat
      with (S (S (2 * (size (b_visited st) - size (b_visited st0)))))%nat by lia.
    done.
Qed.

(** The run of [generate_maze] on a fresh generator: the builder loop ends
    with the grid covered, the search answers [True], and the Wall Set of
    the builder is returned as it is. *)
Lemma generate_returns_builder (g : G) (fuel : nat) :
  1 <= width -> 1 <= height -> (Z.to_nat (width * height) <= fuel)%nat ->
  exists st,
    build_loop next fuel width height
      (build_init width height (init_walls width height) g) = Some st /\
    build_reach next width height (build_init width height (init_walls width height) g) st /\
    tree_inv width height st /\
    b_visited st = grid width height /\
    generate next fuel width height g = Some (b_walls st, b_rng st).
Proof.
  intros Hw Hh Hfuel.
  destruct (build_loop_returns next width height fuel (init_walls width height) g Hw Hh Hfuel)
    as (st & Hloop & Hreach & Hfi & Hfr & Hall).
  assert (tree_inv width height st) as Hti.
  { eapply tree_inv_reach; [|apply tree_inv_init|exact Hreach].
    by apply frontier_inv_init. }
  exists st. split_and!; try done.
  unfold generate, generate_maze. rewrite Hloop. simpl.
  unfold _ensure_path_exists. rewrite has_path_complete; [done| | |].
  - unfold in_bounds. simpl. lia.
  - apply (ti_conn _ _ _ Hti). rewrite Hall. apply elem_of_grid.
    unfold in_bounds. simpl. lia.
  - pose proof (size_grid width height). lia.
Qed.

End Finished.

(** X4. For width, height >= 1 and every random source, the Wall Set that
    [generate_maze] returns is the one the builder loop left (the repair
    never alters it); it is a subset of the initial one with exactly
    (width-1)*(height-1) walls left; its open passages form no cycle, and
    every cell of the grid can be reached from every other. *)
Theorem generate_maze_perfect {G : Type} (next : G -> nat * G) (g : G)
    (width height : Z) (fuel : nat) :
  1 <= width -> 1 <= height -> (Z.to_nat (width * height) <= fuel)%nat ->
  exists walls g' st,
    generate next fuel width height g = Some (walls, g') /\
    build_loop next fuel width height
      (build_init width height (init_walls width height) g) = Some st /\
    walls = b_walls st /\
    walls ⊆ init_walls width height /\
    Z.of_nat (size walls) = (width - 1) * (height - 1) /\
    acyclic (open_edge width height walls) /\
    (forall a b, in_bounds width height a -> in_bounds width height b ->
       connected width height walls a b).
Proof.
  intros Hw Hh Hfuel.
  destruct (generate_returns_builder next width height g fuel Hw Hh Hfuel)
    as (st & Hloop & _ & Hti & Hall & Hgen).
  exists (b_walls st), (b_rng st), st. split_and!; [done..| | | |].
  - apply (ti_sub _ _ _ Hti).
  - pose proof (ti_count _ _ _ Hti) as Hcount. rewrite Hall in Hcount.
    pose proof (size_grid width height).
    pose proof (size_init_walls width height Hw Hh) as Hinit.
    pose proof (size_difference _ _ (ti_sub _ _ _ Hti)) as Hdiff.
    pose proof (subseteq_size _ _ (ti_sub _ _ _ Hti)).
    unfold open_edges in Hcount. lia.
  - apply (ti_acyclic _ _ _ Hti).
  - intros a b Ha Hb. eapply rtc_trans.
    + apply connected_sym, (ti_conn _ _ _ Hti). rewrite Hall. by apply elem_of_grid.
    + apply (ti_conn _ _ _ Hti). rewrite Hall. by apply elem_of_grid.
Qed.

Lemma generate_maze_perfect_witness :
  exists walls g' st,
    generate sample_next 12 4 3 0%nat = Some (walls, g') /\
    build_loop sample_next 12 4 3 (build_init 4 3 (init_walls 4 3) 0%nat) = Some st /\
    walls = b_walls st /\
    walls ⊆ init_walls 4 3 /\
    Z.of_nat (size walls) = (4 - 1) * (3 - 1) /\
    acyclic (open_edge 4 3 walls) /\
    (forall a b, in_bounds 4 3 a -> in_bounds 4 3 b -> connected 4 3 walls a b).
Proof. apply (generate_maze_perfect sample_next 0%nat 4 3 12); lia. Defined.

(** X5. For width, height >= 1, [generate_maze] calls [random.choice]
    exactly 2*(width*height - 1) times, one draw each: the random source is
    left in the state reached after that many draws. *)
Theorem generate_maze_draws {G : Type} (next : G -> nat * G) (g : G)
    (width height : Z) (fuel : nat) :
  1 <= width -> 1 <= height -> (Z.to_nat (width * height) <= fuel)%nat ->
  exists walls,
    generate next fuel width height g
      = Some (walls, advance next (2 * (Z.to_nat (width * height) - 1)) g).
Proof.
  intros Hw Hh Hfuel.
  destruct (generate_returns_builder next width height g fuel Hw Hh Hfuel)
    as (st & _ & Hreach & _ & Hall & Hgen).
  exists (b_walls st). rewrite Hgen. do 2 f_equal.
  destruct (build_reach_rng next width height _ st
              (frontier_inv_init width height _ g Hw Hh) Hreach) as [_ ->].
  rewrite Hall. unfold build_init. cbn [b_visited b_rng].
  rewrite size_singleton.
  pose proof (size_grid width height).
  replace (size (grid width height)) with (Z.to_nat (width * height)) by lia.
  done.
Qed.

Lemma generate_maze_draws_witness :
  exists walls,
    generate sample_next 6 2 3 0%nat
      = Some (walls, advance sample_next (2 * (Z.to_nat (2 * 3) - 1)) 0%nat).
Proof. apply (generate_maze_draws sample_next 0%nat 2 3 6); lia. Defined.

(** ** A grid without cells *)

Section EmptyGrid.
Context (width height : Z) (Hempty : width <= 0 \/ height <= 0).

Lemma empty_grid_no_cell (c : Cell) : ¬ in_bounds width height c.
Proof using Hempty. unfold in_bounds. lia. Qed.

Lemma empty_grid_init_walls : init_walls width height = ∅.
Proof using Hempty.
  apply set_eq. intros [a b]. rewrite elem_of_init_walls. split; [|set_solver].
  intros [Ha _]. by apply empty_grid_no_cell in Ha.
Qed.

Lemma empty_grid_frontier (cell : Cell) (visited : gset Cell) :
  _add_frontier_cells width height cell visited ∅ = ∅.
Proof using Hempty.
  apply set_eq. intros c. rewrite elem_of_add_frontier_cells. split; [|set_solver].
  intros [?|(_ & Hc & _)]; [done|]. by apply empty_grid_no_cell in Hc.
Qed.

Lemma empty_grid_expand (walls : gset (Cell * Cell)) (current : Cell)
    (v : gset Cell) (q : list Cell) :
  bfs_expand width height walls current v q = (v, q).
Proof using Hempty.
  unfold bfs_expand, directions. cbn [foldl].
  do 4 (rewrite bfs_visit_eq; cbv zeta;
        rewrite decide_False by (intros [Hc _]; by apply empty_grid_no_cell in Hc)).
  done.
Qed.

Lemma empty_grid_has_path (walls : gset (Cell * Cell)) (start end_ : Cell) (fuel : nat) :
  start ≠ end_ ->
  _has_path (S fuel) width height walls start end_ = Some false.
Proof using Hempty.
  intros Hne. unfold _has_path. cbn [bfs_loop].
  rewrite decide_False by done. rewrite empty_grid_expand. by destruct fuel.
Qed.

Lemma empty_grid_create_path (walls : gset (Cell * Cell)) (start end_ : Cell) (fuel : nat) :
  start ≠ end_ ->
  _create_path (S fuel) width height walls start end_
    = Some (mkWalk walls start {[start]} [] PathEmpty).
Proof using Hempty.
  intros Hne. unfold _create_path. cbn [create_loop].
  rewrite decide_False by done.
  rewrite decide_False by apply empty_grid_no_cell. done.
Qed.

End EmptyGrid.

(** X6. On a grid without cells (width <= 0 or height <= 0) and with fuel
    for one pass, [generate_maze] returns the empty Wall Set and makes no
    draw; on its way the search answers [False] and the repair walk gives up
    at once, leaving its loop with the path emptied. *)
Theorem generate_maze_empty_grid {G : Type} (next : G -> nat * G) (g : G)
    (width height : Z) (fuel : nat) :
  width <= 0 \/ height <= 0 -> (1 <= fuel)%nat ->
  generate next fuel width height g = Some (∅, g) /\
  _has_path fuel width height ∅ (mkCell 0 0) (mkCell (width - 1) (height - 1))
    = Some false /\
  exists w,
    _create_path fuel width height ∅ (mkCell 0 0) (mkCell (width - 1) (height - 1))
      = Some w /\
    w_exit w = PathEmpty /\ w_path w = [] /\ w_walls w = ∅.
Proof.
  intros Hempty Hfuel. destruct fuel as [|fuel]; [lia|].
  assert (mkCell 0 0 ≠ mkCell (width - 1) (height - 1)) as Hne.
  { intros [= ? ?]. lia. }
  pose proof (empty_grid_has_path width height Hempty ∅ _ _ fuel Hne) as Hsearch.
  pose proof (empty_grid_create_path width height Hempty ∅ _ _ fuel Hne) as Hwalk.
  split_and!; [|done|by eexists].
  unfold generate, generate_maze, build_init.
  rewrite (empty_grid_init_walls width height Hempty).
  rewrite (empty_grid_frontier width height Hempty).
  cbn [build_loop b_frontier]. rewrite decide_True by done. simpl.
  unfold _ensure_path_exists. rewrite Hsearch. simpl. by rewrite Hwalk.
Qed.

Lemma generate_maze_empty_grid_witness :
  generate sample_next 1 0 5 7%nat = Some (∅, 7%nat) /\
  _has_path 1 0 5 ∅ (mkCell 0 0) (mkCell (0 - 1) (5 - 1)) = Some false /\
  exists w,
    _create_path 1 0 5 ∅ (mkCell 0 0) (mkCell (0 - 1) (5 - 1)) = Some w /\
    w_exit w = PathEmpty /\ w_path w = [] /\ w_walls w = ∅.
Proof. apply (generate_maze_empty_grid sample_next 7%nat 0 5 1); lia. Defined.

(** * Properties of the game *)

(** ** Moving the player *)

Section Moves.
Context {T : Type} (size : Z).

(** A step to a neighbouring cell is allowed exactly along an open passage. *)
Lemma can_move_neighbor (walls : gset (Cell * Cell)) (a : Cell) (d : Direction) :
  in_bounds size size a ->
  MazeGame.can_move size walls a (get_neighbor a d) = true <->
  open_edge size size walls a (get_neighbor a d).
Proof.
  intros Ha. unfold MazeGame.can_move, MazeGame.can_move_logged.
  case_decide as Hb.
  - split; [done|]. by intros (_ & ? & _).
  - rewrite decide_False
      by (rewrite get_neighbor_x, get_neighbor_y; destruct d; simpl; lia).
    simpl. rewrite negb_true_iff. unfold open_edge, is_wall_between, MazeGame.is_wall_between.
    rewrite bool_decide_eq_false, bool_decide_spec. split.
    + intros Hw. split_and!; try done. by exists d.
    + by intros (_ & _ & _ & Hw).
Qed.

Lemma handle_arrow (self : MazeGame.Game (T:=T)) (d : Direction) :
  let p := MazeGame.player_pos self in
  MazeGame.handle_movement size self (arrow d) =
  if MazeGame.can_move size (MazeGame.walls self) p (get_neighbor p d)
  then MazeGame.mkGame (MazeGame.walls self) (get_neighbor p d)
         (MazeGame.goal_pos self) (MazeGame.game_over self) (MazeGame.start_time self)
  else self.
Proof. by destruct d. Qed.

Lemma handle_other (self : MazeGame.Game (T:=T)) :
  MazeGame.player_pos (MazeGame.handle_movement size self MazeGame.K_other)
    = MazeGame.player_pos self.
Proof.
  unfold MazeGame.handle_movement. destruct (MazeGame.can_move _ _ _ _); [|done].
  simpl. apply cell_ext; simpl; lia.
Qed.

(** Every key leaves the Wall Set, the goal, the flag and the clock alone. *)
Lemma handle_movement_frame (self : MazeGame.Game (T:=T)) (key : MazeGame.Key) :
  let self' := MazeGame.handle_movement size self key in
  MazeGame.walls self' = MazeGame.walls self /\
  MazeGame.goal_pos self' = MazeGame.goal_pos self /\
  MazeGame.game_over self' = MazeGame.game_over self /\
  MazeGame.start_time self' = MazeGame.start_time self.
Proof.
  unfold MazeGame.handle_movement.
  destruct key; simpl; destruct (MazeGame.can_move _ _ _ _); done.
Qed.

(** Where one key press leaves the player: on the spot, or one open
    passage further. *)
Lemma handle_movement_edge (self : MazeGame.Game (T:=T)) (key : MazeGame.Key) :
  in_bounds size size (MazeGame.player_pos self) ->
  let p' := MazeGame.player_pos (MazeGame.handle_movement size self key) in
  p' = MazeGame.player_pos self \/
  open_edge size size (MazeGame.walls self) (MazeGame.player_pos self) p'.
Proof.
  intros Hp.
  assert (forall d,
    let p' := MazeGame.player_pos (MazeGame.handle_movement size self (arrow d)) in
    p' = MazeGame.player_pos self \/
    open_edge size size (MazeGame.walls self) (MazeGame.player_pos self) p') as Harrow.
  { intros d. rewrite handle_arrow. cbv zeta.
    destruct (MazeGame.can_move _ _ _ _) eqn:Hmove; [|by left].
    right. by apply can_move_neighbor. }
  destruct key; [apply (Harrow UP)|apply (Harrow DOWN)|apply (Harrow LEFT)
                |apply (Harrow RIGHT)|left; apply handle_other].
Qed.

(** Cells joined by open passages are joined by key presses. *)
Lemma keys_along (w : gset (Cell * Cell)) (a b : Cell) :
  connected size size w a b ->
  forall self : MazeGame.Game (T:=T),
    MazeGame.player_pos self = a -> MazeGame.walls self = w ->
    exists keys, MazeGame.player_pos (play size self keys) = b.
Proof.
  induction 1 as [a|a c b Hac _ IH]; intros self Hp Hw.
  - by exists [].
  - pose proof Hac as (Ha & _ & (d & ->) & _).
    destruct (handle_movement_frame self (arrow d)) as (Hw' & _).
    destruct (IH (MazeGame.handle_movement size self (arrow d))) as [keys Hkeys].
    + rewrite handle_arrow. cbv zeta. rewrite Hp, Hw.
      by rewrite (proj2 (can_move_neighbor w a d Ha) Hac).
    + by rewrite Hw'.
    + by exists (arrow d :: keys).
Qed.

End Moves.

(** X8. With the player on a grid cell, one call of [handle_movement]
    changes nothing but the player's position; the player stays in the
    grid; a key other than the four arrows leaves it where it is; and an
    arrow key moves it to the neighbouring cell in that direction exactly
    when an open passage leads there, and leaves it in place otherwise. *)
Theorem handle_movement_step {T : Type} (size : Z) (self : MazeGame.Game (T:=T))
    (key : MazeGame.Key) :
  in_bounds size size (MazeGame.player_pos self) ->
  let p := MazeGame.player_pos self in
  let self' := MazeGame.handle_movement size self key in
  MazeGame.walls self' = MazeGame.walls self /\
  MazeGame.goal_pos self' = MazeGame.goal_pos self /\
  MazeGame.game_over self' = MazeGame.game_over self /\
  MazeGame.start_time self' = MazeGame.start_time self /\
  in_bounds size size (MazeGame.player_pos self') /\
  (key = MazeGame.K_other -> MazeGame.player_pos self' = p) /\
  (forall d, key = arrow d ->
     (open_edge size size (MazeGame.walls self) p (get_neighbor p d) /\
      MazeGame.player_pos self' = get_neighbor p d) \/
     (¬ open_edge size size (MazeGame.walls self) p (get_neighbor p d) /\
      MazeGame.player_pos self' = p)).
Proof.
  intros Hp p self'.
  destruct (handle_movement_frame size self key) as (Hw & Hg & Ho & Ht).
  split_and!; try done.
  - destruct (handle_movement_edge size self key Hp) as [Heq|(_ & ? & _)]; [|done].
    subst self'. by rewrite Heq.
  - intros ->. apply handle_other.
  - intros d ->. subst self'. rewrite handle_arrow. cbv zeta. fold p.
    pose proof (can_move_neighbor size (MazeGame.walls self) p d Hp) as Hiff.
    destruct (MazeGame.can_move _ _ _ _); [left|right]; split; try done.
    + by apply Hiff.
    + intros Hedge. by apply Hiff in Hedge.
Qed.

Lemma handle_movement_step_witness :
  let self := MazeGame.mkGame (init_walls 2 2) (mkCell 0 0) (mkCell 1 1) false 0 in
  let p := MazeGame.player_pos self in
  let self' := MazeGame.handle_movement 2 self MazeGame.K_RIGHT in
  MazeGame.walls self' = MazeGame.walls self /\
  MazeGame.goal_pos self' = MazeGame.goal_pos self /\
  MazeGame.game_over self' = MazeGame.game_over self /\
  MazeGame.start_time self' = MazeGame.start_time self /\
  in_bounds 2 2 (MazeGame.player_pos self') /\
  (MazeGame.K_RIGHT = MazeGame.K_other -> MazeGame.player_pos self' = p) /\
  (forall d, MazeGame.K_RIGHT = arrow d ->
     (open_edge 2 2 (MazeGame.walls self) p (get_neighbor p d) /\
      MazeGame.player_pos self' = get_neighbor p d) \/
     (¬ open_edge 2 2 (MazeGame.walls self) p (get_neighbor p d) /\
      MazeGame.player_pos self' = p)).
Proof.
  apply (handle_movement_step 2
           (MazeGame.mkGame (init_walls 2 2) (mkCell 0 0) (mkCell 1 1) false 0)
           MazeGame.K_RIGHT).
  unfold in_bounds. simpl. lia.
Defined.

(** X9. Whatever keys are pressed, starting with the player on a grid
    cell: the Wall Set is not changed, the player stays in the grid, and
    the cell it ends on is joined to the cell it started from by open
    passages, so the player never passes a wall. *)
Theorem play_stays_on_open_passages {T : Type} (size : Z)
    (self : MazeGame.Game (T:=T)) (keys : list MazeGame.Key) :
  in_bounds size size (MazeGame.player_pos self) ->
  MazeGame.walls (play size self keys) = MazeGame.walls self /\
  in_bounds size size (MazeGame.player_pos (play size self keys)) /\
  connected size size (MazeGame.walls self) (MazeGame.player_pos self)
    (MazeGame.player_pos (play size self keys)).
Proof.
  revert self. induction keys as [|key keys IH] using rev_ind; intros self Hp.
  - split_and!; [done..|apply rtc_refl].
  - destruct (IH self Hp) as (Hw & Hb & Hc).
    unfold play in *. rewrite foldl_snoc.
    destruct (handle_movement_frame size (foldl (MazeGame.handle_movement size) self keys) key)
      as (Hw' & _).
    destruct (handle_movement_edge size _ key Hb) as [Heq|Hedge].
    + rewrite Heq, Hw', Hw. by split_and!.
    + rewrite Hw', Hw. rewrite Hw in Hedge. split_and!; [done| |].
      * by destruct Hedge as (_ & ? & _).
      * by eapply rtc_r.
Qed.

Lemma play_stays_on_open_passages_witness :
  let self := MazeGame.mkGame (init_walls 2 2) (mkCell 0 0) (mkCell 1 1) false 0 in
  let keys := [MazeGame.K_RIGHT; MazeGame.K_other; MazeGame.K_UP] in
  MazeGame.walls (play 2 self keys) = MazeGame.walls self /\
  in_bounds 2 2 (MazeGame.player_pos (play 2 self keys)) /\
  connected 2 2 (MazeGame.walls self) (MazeGame.player_pos self)
    (MazeGame.player_pos (play 2 self keys)).
Proof.
  apply (play_stays_on_open_passages 2
           (MazeGame.mkGame (init_walls 2 2) (mkCell 0 0) (mkCell 1 1) false 0)
           [MazeGame.K_RIGHT; MazeGame.K_other; MazeGame.K_UP]).
  unfold in_bounds. simpl. lia.
Defined.

(** ** A new game can be won *)

Lemma generate_all_connected {G : Type} (next : G -> nat * G) (g : G)
    (width height : Z) (fuel : nat) :
  1 <= width -> 1 <= height -> (Z.to_nat (width * height) <= fuel)%nat ->
  exists walls g',
    generate next fuel width height g = Some (walls, g') /\
    forall a b, in_bounds width height a -> in_bounds width height b ->
      connected width height walls a b.
Proof.
  intros Hw Hh Hfuel.
  destruct (generate_returns_builder next width height g fuel Hw Hh Hfuel)
    as (st & Hloop & _ & Hti & Hall & Hgen).
  exists (b_walls st), (b_rng st). split; [done|].
  intros a b Ha Hb. eapply rtc_trans.
  - apply connected_sym, (ti_conn _ _ _ Hti). rewrite Hall. by apply elem_of_grid.
  - apply (ti_conn _ _ _ Hti). rewrite Hall. by apply elem_of_grid.
Qed.

(** X10. A game set up by [__init__] on a grid of size >= 1 starts with the
    player on (0,0), the goal on (size-1, size-1) and the game not over, and
    it can be won: some sequence of key presses, handled one by one by
    [handle_movement], brings the player to the goal. *)
Theorem new_game_winnable {T G : Type} (next : G -> nat * G) (g : G)
    (size : Z) (zero : T) (fuel : nat) :
  1 <= size -> (Z.to_nat (size * size) <= fuel)%nat ->
  exists game g',
    MazeGame.new_game next fuel size zero g = Some (game, g') /\
    MazeGame.player_pos game = mkCell 0 0 /\
    MazeGame.goal_pos game = mkCell (size - 1) (size - 1) /\
    MazeGame.game_over game = false /\
    exists keys, MazeGame.player_pos (play size game keys) = MazeGame.goal_pos game.
Proof.
  intros Hsize Hfuel.
  destruct (generate_all_connected next g size size fuel Hsize Hsize Hfuel)
    as (walls & g' & Hgen & Hconn).
  unfold MazeGame.new_game. rewrite Hgen. simpl.
  eexists _, _. split; [done|]. simpl. split_and!; try done.
  eapply keys_along; [|done..]. simpl.
  apply Hconn; unfold in_bounds; simpl; lia.
Qed.

Lemma new_game_winnable_witness :
  exists game g',
    MazeGame.new_game sample_next 1600 MazeGame.MAZE_SIZE 0 0%nat = Some (game, g') /\
    MazeGame.player_pos game = mkCell 0 0 /\
    MazeGame.goal_pos game = mkCell (MazeGame.MAZE_SIZE - 1) (MazeGame.MAZE_SIZE - 1) /\
    MazeGame.game_over game = false /\
    exists keys,
      MazeGame.player_pos (play MazeGame.MAZE_SIZE game keys) = MazeGame.goal_pos game.
Proof.
  apply (new_game_winnable sample_next 0%nat MazeGame.MAZE_SIZE 0 1600);
    unfold MazeGame.MAZE_SIZE; lia.
Defined.

(** X11. [reset_game], called in any state of a game whose goal is a grid
    cell, replaces the Wall Set by a freshly generated one, puts the player
    back on (0,0), clears the game-over flag, stores the clock reading and
    keeps the goal; the goal can again be reached by key presses. *)
Theorem reset_game_winnable {T G : Type} (next : G -> nat * G) (g : G)
    (size : Z) (now : T) (self : MazeGame.Game (T:=T)) (fuel : nat) :
  1 <= size -> (Z.to_nat (size * size) <= fuel)%nat ->
  in_bounds size size (MazeGame.goal_pos self) ->
  exists game g',
    MazeGame.reset_game next fuel size now self g = Some (game, g') /\
    generate next fuel size size g = Some (MazeGame.walls game, g') /\
    MazeGame.player_pos game = mkCell 0 0 /\
    MazeGame.goal_pos game = MazeGame.goal_pos self /\
    MazeGame.game_over game = false /\
    MazeGame.start_time game = now /\
    exists keys, MazeGame.player_pos (play size game keys) = MazeGame.goal_pos game.
Proof.
  intros Hsize Hfuel Hgoal.
  destruct (generate_all_connected next g size size fuel Hsize Hsize Hfuel)
    as (walls & g' & Hgen & Hconn).
  unfold MazeGame.reset_game. rewrite Hgen. simpl.
  eexists _, _. split; [done|]. simpl. split_and!; try done.
  eapply keys_along; [|done..]. simpl.
  apply Hconn; [|done]. unfold in_bounds; simpl; lia.
Qed.

Lemma reset_game_winnable_witness :
  let self := MazeGame.mkGame ∅ (mkCell 2 1) (mkCell 2 2) true 17 in
  exists game g',
    MazeGame.reset_game sample_next 9 3 42 self 0%nat = Some (game, g') /\
    generate sample_next 9 3 3 0%nat = Some (MazeGame.walls game, g') /\
    MazeGame.player_pos game = mkCell 0 0 /\
    MazeGame.goal_pos game = MazeGame.goal_pos self /\
    MazeGame.game_over game = false /\
    MazeGame.start_time game = 42 /\
    exists keys, MazeGame.player_pos (play 3 game keys) = MazeGame.goal_pos game.
Proof.
  apply (reset_game_winnable sample_next 0%nat 3 42
           (MazeGame.mkGame ∅ (mkCell 2 1) (mkCell 2 2) true 17) 9);
    unfold in_bounds; simpl; lia.
Defined.

(** ** Movement requests that are not single steps *)

(** X13. [can_move] does not check that the two cells are neighbours: in
    every state of the Wall Set (a subset of the initial one), a request to
    move within a row or a column to a grid cell that is not one step away
    (two or more steps, or none) is allowed, whatever walls lie between. *)
Theorem can_move_ignores_distance (size : Z) (walls : gset (Cell * Cell))
    (from_cell to_cell : Cell) :
  walls ⊆ init_walls size size ->
  in_bounds size size to_cell ->
  x to_cell = x from_cell \/ y to_cell = y from_cell ->
  Z.abs (x to_cell - x from_cell) + Z.abs (y to_cell - y from_cell) ≠ 1 ->
  MazeGame.can_move size walls from_cell to_cell = true.
Proof.
  intros Hsub Hto Hline Hfar.
  unfold MazeGame.can_move, MazeGame.can_move_logged.
  rewrite decide_False by tauto.
  rewrite decide_False by lia.
  simpl. apply negb_true_iff, bool_decide_eq_false. intros Hin%Hsub.
  destruct (wall_key_cases from_cell to_cell) as [Hkey|Hkey]; rewrite Hkey in Hin;
    apply elem_of_init_walls in Hin as [_ [[_ Heq]|[_ Heq]]];
    rewrite Heq, ?get_neighbor_x, ?get_neighbor_y in Hfar; simpl in Hfar; lia.
Qed.

Lemma can_move_ignores_distance_witness :
  MazeGame.can_move 3 (init_walls 3 3) (mkCell 0 0) (mkCell 2 0) = true.
Proof.
  apply (can_move_ignores_distance 3 (init_walls 3 3) (mkCell 0 0) (mkCell 2 0)).
  - reflexivity.
  - unfold in_bounds. simpl. lia.
  - right. reflexivity.
  - simpl. lia.
Defined.

(** ** Pixels *)

(** X12. For a cell of a grid of [size] cells a side, the dot of radius
    [DOT_SIZE] drawn around the pixel of [cell_to_pixel] lies inside the
    window; the pixel of a neighbouring cell is one [cell_size] further in
    the direction of the neighbour; and different cells have different
    pixels. *)
Theorem cell_to_pixel_inside (size : Z) (a b : Cell) (d : Direction) :
  in_bounds size size a ->
  (0 < (MazeGame.cell_to_pixel a).1 - MazeGame.DOT_SIZE /\
   (MazeGame.cell_to_pixel a).1 + MazeGame.DOT_SIZE < MazeGame.screen_width size /\
   0 < (MazeGame.cell_to_pixel a).2 - MazeGame.DOT_SIZE /\
   (MazeGame.cell_to_pixel a).2 + MazeGame.DOT_SIZE < MazeGame.screen_width size) /\
  MazeGame.cell_to_pixel (get_neighbor a d) =
    ((MazeGame.cell_to_pixel a).1 + MazeGame.cell_size * (value d).1,
     (MazeGame.cell_to_pixel a).2 + MazeGame.cell_size * (value d).2) /\
  (MazeGame.cell_to_pixel a = MazeGame.cell_to_pixel b -> a = b).
Proof.
  intros Ha. unfold in_bounds in Ha.
  unfold MazeGame.cell_to_pixel, MazeGame.screen_width, MazeGame.cell_size,
    MazeGame.DOT_SIZE, MazeGame.PATH_WIDTH, MazeGame.WALL_WIDTH.
  change (12 / 2) with 6. split_and!; simpl; try lia.
  - rewrite get_neighbor_x, get_neighbor_y. f_equal; lia.
  - intros [= Hx Hy]. apply cell_ext; lia.
Qed.

Lemma cell_to_pixel_inside_witness :
  (0 < (MazeGame.cell_to_pixel (mkCell 39 0)).1 - MazeGame.DOT_SIZE /\
   (MazeGame.cell_to_pixel (mkCell 39 0)).1 + MazeGame.DOT_SIZE < MazeGame.screen_width 40 /\
   0 < (MazeGame.cell_to_pixel (mkCell 39 0)).2 - MazeGame.DOT_SIZE /\
   (MazeGame.cell_to_pixel (mkCell 39 0)).2 + MazeGame.DOT_SIZE < MazeGame.screen_width 40) /\
  MazeGame.cell_to_pixel (get_neighbor (mkCell 39 0) DOWN) =
    ((MazeGame.cell_to_pixel (mkCell 39 0)).1 + MazeGame.cell_size * (value DOWN).1,
     (MazeGame.cell_to_pixel (mkCell 39 0)).2 + MazeGame.cell_size * (value DOWN).2) /\
  (MazeGame.cell_to_pixel (mkCell 39 0) = MazeGame.cell_to_pixel (mkCell 0 39) ->
   mkCell 39 0 = mkCell 0 39).
Proof.
  apply (cell_to_pixel_inside 40 (mkCell 39 0) (mkCell 0 39) DOWN).
  unfold in_bounds. simpl. lia.
Defined.
